(** * hybridLambdaMaker: Newick text surgery for Hybrid-Lambda

    A shallow embedding of [hybridLambdaMaker.py].  Python byte strings are
    lists of characters, Python integers are [Z], and the loops of the
    script are folds over the characters (or entries) they iterate. *)

From Stdlib Require Import Floats Uint63.
From Stdlib Require Import Ascii String DecimalString.
From Stdlib Require Import ZArith Lia Bool Arith Permutation Sorting.Sorted.
From Stdlib Require Import List.
Import ListNotations.

Local Open Scope char_scope.
Local Open Scope list_scope.

(** ** Python strings *)

(** A Python 2 [str]: a sequence of one-byte characters. *)
Definition str := list ascii.

(** A string literal of the script. *)
Definition lit (s : string) : str := list_ascii_of_string s.

(** [str(n)] for a Python integer. *)
Definition str_of_int (n : Z) : str :=
  lit (NilZero.string_of_int (Z.to_int n)).

(** [s.count(c)] for a one-character needle. *)
Definition count (s : str) (c : ascii) : nat := count_occ ascii_dec s c.

(** [''.join(pieces)]. *)
Definition join_empty (pieces : list str) : str := concat pieces.

(** ** addNodeNumb (lines 28-43) *)

(** The body of [for c in inTree], on the pair of the two variables it
    updates: the list [outTree] and the counter [nNodes]. *)
Definition addNodeNumb_body (st : list str * Z) (c : ascii) : list str * Z :=
  let '(outTree, nNodes) := st in
  if Ascii.eqb c ")"
  then (outTree ++ [c :: lit "s" ++ str_of_int nNodes], nNodes - 1)%Z
  else (outTree ++ [[c]], nNodes).

Definition addNodeNumb (inTree : str) : str :=
  let outTree := [] in
  let nNodes := (Z.of_nat (count inTree ")") * 2)%Z in
  let '(outTree, _) := fold_left addNodeNumb_body inTree (outTree, nNodes) in
  join_empty outTree.

(** The values of [nNodes] that line 39 writes, in the order it writes
    them: the same loop, recording the counter instead of the text. *)
Definition label_body (st : list Z * Z) (c : ascii) : list Z * Z :=
  let '(labels, nNodes) := st in
  if Ascii.eqb c ")"
  then (labels ++ [nNodes], nNodes - 1)%Z
  else (labels, nNodes).

Definition node_labels (inTree : str) : list Z :=
  fst (fold_left label_body inTree ([], Z.of_nat (count inTree ")") * 2)%Z).

(** The text in which the closing parentheses of [text] carry the given
    labels, one after the other. *)
Fixpoint weave (text : str) (labels : list Z) : str :=
  match text with
  | [] => []
  | c :: rest =>
      if Ascii.eqb c ")"
      then match labels with
           | [] => c :: weave rest []
           | l :: ls => c :: lit "s" ++ str_of_int l ++ weave rest ls
           end
      else c :: weave rest labels
  end.

(** *** The labeler as the specification words it

    A state machine over one left-to-right scan; the state is [counter]. *)
Fixpoint labelNodes_scan (counter : Z) (text : str) : str :=
  match text with
  | [] => []
  | c :: rest =>
      if Ascii.eqb c ")"
      then c :: lit "s" ++ str_of_int counter ++ labelNodes_scan (counter - 1) rest
      else c :: labelNodes_scan counter rest
  end.

Definition labelNodes (text : str) : str :=
  labelNodes_scan (2 * Z.of_nat (count text ")")) text.

(** [countdown n k] is [n; n-1; ...; n-k+1]. *)
Fixpoint countdown (n : Z) (k : nat) : list Z :=
  match k with
  | O => []
  | S k' => n :: countdown (n - 1) k'
  end.

(** ** Outcomes of a run

    The script has no exception classes of its own: it prints a message and
    calls [sys.exit()], or lets a Python exception end the run. *)
Inductive failure : Type :=
| MissingTaxonError      (* lines 63-65: message, then sys.exit() *)
| EqualLikelihoodError   (* lines 104-106: message, then sys.exit() *)
| ValueError             (* float() at line 74, not caught *)
| AttributeError         (* search.group at line 103 when search is None *)
| IndexError             (* i.split(":")[1] at line 135 *)
| IOError                (* open() at line 109 *)
| TreeLibraryError       (* raised inside dendropy, lines 120-126 *)
| HelperUndefined.       (* a GSO helper used where the specification
                            gives it no result *)

Inductive result (A : Type) : Type :=
| Ok (a : A)
| Fail (e : failure).
Arguments Ok {A} a.
Arguments Fail {A} e.

Definition bind {A B : Type} (m : result A) (k : A -> result B) : result B :=
  match m with
  | Ok a => k a
  | Fail e => Fail e
  end.

Notation "x <- m ;; k" := (bind m (fun x => k))
  (at level 61, m at next level, right associativity).
Notation "' pat <- m ;; k" := (bind m (fun x => match x with pat => k end))
  (at level 61, pat pattern, m at next level, right associativity).

(** An optional value, with the failure to report when it is absent. *)
Definition or_fail {A : Type} (e : failure) (o : option A) : result A :=
  match o with
  | Some a => Ok a
  | None => Fail e
  end.

(** The body of a loop run over a list, stopping at the first failure. *)
Fixpoint for_each {A B : Type} (f : A -> result B) (xs : list A)
  : result (list B) :=
  match xs with
  | [] => Ok []
  | x :: rest =>
      y <- f x ;;
      ys <- for_each f rest ;;
      Ok (y :: ys)
  end.

(** ** Substring search *)

Definition str_eqb (s t : str) : bool :=
  if list_eq_dec ascii_dec s t then true else false.

(** [hay.startswith(needle)], returning what follows the needle. *)
Fixpoint strip_prefix (needle hay : str) : option str :=
  match needle, hay with
  | [], _ => Some hay
  | _ :: _, [] => None
  | a :: needle', b :: hay' =>
      if Ascii.eqb a b then strip_prefix needle' hay' else None
  end.

(** The text before and the text after the first occurrence of [needle]
    in [hay]. *)
Fixpoint split_first (needle hay : str) : option (str * str) :=
  match strip_prefix needle hay with
  | Some after => Some ([], after)
  | None =>
      match hay with
      | [] => None
      | c :: rest =>
          match split_first needle rest with
          | Some (before, after) => Some (c :: before, after)
          | None => None
          end
      end
  end.

(** [needle in hay]. *)
Definition contains (hay needle : str) : bool :=
  match split_first needle hay with
  | Some _ => true
  | None => false
  end.

(** ** GeneralStringOperations *)

Module GSO.

(** Modelled from the spec: [GeneralStringOperations.exstr] is imported by
    the script and is not among the sources.  Section 4.2: the token lies
    between the located [label + ":"] and the next occurrence of the
    closing delimiter.  The specification gives no result when a delimiter
    does not occur. *)
Definition exstr (instr delim1 delim2 : str) : option str :=
  match split_first delim1 instr with
  | None => None
  | Some (_, after) =>
      match split_first delim2 after with
      | None => None
      | Some (token, _) => Some token
      end
  end.

(** Modelled from the spec: [GeneralStringOperations.replstr] is not among
    the sources.  Section 4.2: the token found as in [exstr] is replaced in
    place, everything else is kept. *)
Definition replstr (instr delim1 delim2 repl : str) : option str :=
  match split_first delim1 instr with
  | None => None
  | Some (before, after) =>
      match split_first delim2 after with
      | None => None
      | Some (_, rest) => Some (before ++ delim1 ++ repl ++ delim2 ++ rest)
      end
  end.

(** Modelled from the spec: [GeneralStringOperations.csplit] is not among
    the sources.  Section 4.3: the text is cut in two at the first
    occurrence of the delimiter, which goes to the right part
    ([rightflag=True]: the prefix ends just before the label and the
    remainder starts at it) or to the left part ([rightflag=False]: the
    segment ends with the delimiter and the suffix is what follows). *)
Definition csplit (instr delim : str) (rightflag : bool) : option (str * str) :=
  match split_first delim instr with
  | None => None
  | Some (before, after) =>
      if rightflag then Some (before, delim ++ after)
      else Some (before ++ delim, after)
  end.

End GSO.

(** ** The equal-likelihood check (lines 100-106) *)

(** The fragment of regular expressions that line 101 uses. *)
Inductive regex : Type :=
| Chr (c : ascii)                 (* a literal character *)
| Star (cls : ascii -> bool)      (* greedy [x*] on a character class *)
| Plus (cls : ascii -> bool)      (* greedy [x+] on a character class *)
| Seq (r1 r2 : regex)
| Group (r : regex).              (* capturing parentheses *)

(** What is left of [s] after a greedy run of [cls], longest run first:
    the order in which a backtracking matcher tries them. *)
Fixpoint greedy (cls : ascii -> bool) (s : str) : list str :=
  match s with
  | [] => [[]]
  | c :: rest => if cls c then greedy cls rest ++ [s] else [s]
  end.

(** Every way [r] matches at the start of [s], in the matcher's order of
    preference: the captured groups (outermost and leftmost first) and the
    text left over. *)
Fixpoint rmatch (r : regex) (s : str) : list (list str * str) :=
  match r with
  | Chr c =>
      match s with
      | d :: rest => if Ascii.eqb c d then [([], rest)] else []
      | [] => []
      end
  | Star cls => map (fun rest' => ([], rest')) (greedy cls s)
  | Plus cls =>
      match s with
      | d :: rest =>
          if cls d then map (fun rest' => ([], rest')) (greedy cls rest) else []
      | [] => []
      end
  | Seq r1 r2 =>
      flat_map (fun '(g1, s1) =>
                  map (fun '(g2, s2) => (g1 ++ g2, s2)) (rmatch r2 s1))
               (rmatch r1 s)
  | Group r' =>
      map (fun '(g, rest) =>
             (firstn (length s - length rest) s :: g, rest))
          (rmatch r' s)
  end.

(** [re.search(r, s)]: the preferred match at the leftmost position that
    has one; [None] when there is none.  The result lists the groups. *)
Fixpoint re_search (r : regex) (s : str) : option (list str) :=
  match rmatch r s with
  | (groups, _) :: _ => Some groups
  | [] =>
      match s with
      | [] => None
      | _ :: rest => re_search r rest
      end
  end.

(** [search.group(i)], for [i >= 1]. *)
Definition group (groups : list str) (i : nat) : str :=
  nth (i - 1) groups [].

Definition in_range (lo hi c : ascii) : bool :=
  Nat.leb (nat_of_ascii lo) (nat_of_ascii c)
  && Nat.leb (nat_of_ascii c) (nat_of_ascii hi).

(** [\d] and [\w] on byte strings, without the LOCALE or UNICODE flags. *)
Definition is_digit (c : ascii) : bool := in_range "0" "9" c.
Definition is_word (c : ascii) : bool :=
  in_range "a" "z" c || in_range "A" "Z" c || is_digit c || Ascii.eqb c "_".

(** [\d*\.\d+] *)
Definition likelihood_re : regex :=
  Seq (Star is_digit) (Seq (Chr ".") (Plus is_digit)).

(** ['\w+:(\d*\.\d+),\w+:(\d*\.\d+)'].  [re.IGNORECASE] changes nothing:
    the pattern has no letter outside a class. *)
Definition parents_re : regex :=
  Seq (Plus is_word) (Seq (Chr ":") (Seq (Group likelihood_re)
  (Seq (Chr ",") (Seq (Plus is_word) (Seq (Chr ":") (Group likelihood_re)))))).

Definition check_likelihoods (parentInfo : str) : result unit :=
  if contains parentInfo (lit ",") then
    search <- or_fail AttributeError (re_search parents_re parentInfo) ;;
    if str_eqb (group search 1) (group search 2)
    then Fail EqualLikelihoodError
    else Ok tt
  else Ok tt.

(** ** Lines and the hybrid dictionary *)

(** [s.split(sep)] for a one-character separator. *)
Fixpoint split_char (sep : ascii) (s : str) : list str :=
  match s with
  | [] => [[]]
  | c :: rest =>
      if Ascii.eqb c sep then [] :: split_char sep rest
      else match split_char sep rest with
           | [] => [[c]]
           | piece :: pieces => (c :: piece) :: pieces
           end
  end.

(** [sep.join(pieces)]. *)
Fixpoint join (sep : str) (pieces : list str) : str :=
  match pieces with
  | [] => []
  | [piece] => piece
  | piece :: rest => piece ++ sep ++ join sep rest
  end.

Definition newline : ascii := "010".

(** [f.readlines()]: the lines of the file, each with its newline. *)
Fixpoint readlines_from (line : str) (content : str) : list str :=
  match content with
  | [] => match line with [] => [] | _ => [line] end
  | c :: rest =>
      if Ascii.eqb c newline
      then (line ++ [c]) :: readlines_from [] rest
      else readlines_from (line ++ [c]) rest
  end.

Definition readlines (content : str) : list str := readlines_from [] content.

(** The characters [strip()] removes: space, tab, newline, vertical tab,
    form feed, carriage return. *)
Definition is_space (c : ascii) : bool :=
  Ascii.eqb c " " || in_range "009" "013" c.

Fixpoint lstrip (s : str) : str :=
  match s with
  | [] => []
  | c :: rest => if is_space c then lstrip rest else s
  end.

Definition rstrip (s : str) : str := rev (lstrip (rev s)).
Definition strip (s : str) : str := rstrip (lstrip s).

(** Lines 112-115: the test under which a line is kept as a tree. *)
Definition is_tree_line (line : str) : bool :=
  match strip line with
  | [] => false
  | c :: _ => negb (Ascii.eqb c "#")
  end.

(** A Python [dict] with string keys and values, as the entries it holds.
    [dict_set] is [d[k] = v]. *)
Definition dict : Type := list (str * str).

Fixpoint dict_set (d : dict) (k v : str) : dict :=
  match d with
  | [] => [(k, v)]
  | (k', v') :: rest =>
      if str_eqb k' k then (k, v) :: rest else (k', v') :: dict_set rest k v
  end.

(** Lines 133-135: [aDict] built from [parentInfo]. *)
Definition parse_entry (aDict : dict) (i : str) : result dict :=
  let fields := split_char ":" i in
  key <- or_fail IndexError (nth_error fields 0) ;;
  val <- or_fail IndexError (nth_error fields 1) ;;
  Ok (dict_set aDict key val).

Definition parse_parentInfo (parentInfo : str) : result dict :=
  fold_left (fun acc i => aDict <- acc ;; parse_entry aDict i)
            (split_char "," parentInfo) (Ok []).

(** Line 129: [re.sub(r'(\[.*?\])\s*?', '', treeStr)].  A match starts at a
    bracket, runs lazily to the first closing bracket and may not cross a
    newline; the lazy [\s*?] at the end matches nothing.  [held] is the
    text since an opening bracket that has not yet found its end. *)
Fixpoint drop_brackets (held : option str) (s : str) : str :=
  match s with
  | [] => match held with Some h => h | None => [] end
  | c :: rest =>
      match held with
      | None =>
          if Ascii.eqb c "[" then drop_brackets (Some [c]) rest
          else c :: drop_brackets None rest
      | Some h =>
          if Ascii.eqb c "]" then drop_brackets None rest
          else if Ascii.eqb c newline then h ++ c :: drop_brackets None rest
          else drop_brackets (Some (h ++ [c])) rest
      end
  end.

(** ** Exact decimals

    Branch lengths as finite decimals [m / 10^k], on which halving is
    exact: the arithmetic used to run the script on examples. *)
Module Dec.

Definition t : Type := (N * nat)%type.

Definition digit_value (c : ascii) : N := N.of_nat (nat_of_ascii c - 48).

Definition digits_value (s : str) : N :=
  fold_left (fun acc c => (acc * 10 + digit_value c)%N) s 0%N.

(** Digits with at most one point and at least one digit. *)
Definition float (s : str) : option t :=
  if forallb (fun c => is_digit c || Ascii.eqb c ".") s
     && Nat.leb (count s ".") 1
     && existsb is_digit s
  then Some (digits_value (filter is_digit s),
             match split_first (lit ".") s with
             | Some (_, fraction) => length fraction
             | None => 0
             end)
  else None.

Definition times_half (x : t) : t := let '(m, k) := x in ((m * 5)%N, S k).

(** Trailing zeros dropped, one decimal kept. *)
Fixpoint trim (m : N) (k : nat) : N * nat :=
  match k with
  | 0 => ((m * 10)%N, 1)
  | 1 => (m, 1)
  | S k' => if (m mod 10 =? 0)%N then trim (m / 10)%N k' else (m, k)
  end.

Definition to_str (x : t) : str :=
  let '(m, k) := trim (fst x) (snd x) in
  let scale := (10 ^ N.of_nat k)%N in
  let fraction := str_of_int (Z.of_N (m mod scale)) in
  str_of_int (Z.of_N (m / scale)) ++ lit "."
    ++ repeat "0" (k - length fraction) ++ fraction.

End Dec.

(** ** A sample installation

    What the script imports, fixed so that runs can be computed: a
    dictionary iterated in insertion order, a tree library that finds the
    sample trees already left-ladderized, and a file system holding two
    tree files. *)
Module Sample.

Definition iteritems (d : dict) : list (str * str) := d.

Definition ladderize (treeStr : str) : option str := Some treeStr.

(** The name up to its last point, or the whole name without one. *)
Definition rmext (name : str) : str :=
  match split_first (lit ".") (rev name) with
  | Some (_, base) => rev base
  | None => name
  end.

(** [float(s)] on a decimal of at most fifteen digits: the quotient of
    two integers that binary64 holds exactly, rounded once. *)
Definition float64 (s : str) : option PrimFloat.float :=
  match Dec.float s with
  | Some (m, k) =>
      Some (PrimFloat.of_uint63 (Uint63.of_Z (Z.of_N m))
            / PrimFloat.of_uint63 (Uint63.of_Z (10 ^ Z.of_nat k)))%float
  | None => None
  end.

(** The exact decimal expansion of a binary64 number, as [str(x)] gives
    it when that has at most twelve digits. *)
Definition str_of_float64 (x : PrimFloat.float) : str :=
  match Prim2SF x with
  | S754_zero s => (if s then lit "-" else []) ++ lit "0.0"
  | S754_infinity s => (if s then lit "-" else []) ++ lit "inf"
  | S754_nan => lit "nan"
  | S754_finite s m e =>
      (if s then lit "-" else [])
        ++ match e with
           | Zneg p => Dec.to_str ((Npos m * 5 ^ Npos p)%N, Pos.to_nat p)
           | _ => Dec.to_str ((Npos m * 2 ^ Z.to_N e)%N, 0)
           end
  end.

Definition trees_tre : str :=
  lit "# two trees" ++ [newline]
  ++ [newline]
  ++ lit "((B:1.0,C:1.0):1.0,A:1.0);" ++ [newline]
  ++ lit "   " ++ [newline]
  ++ lit "  (B:2.0,C:3.0);" ++ [newline].

Definition other_tre : str :=
  lit "((B:1.0,C:1.0):1.0,A:1.0);" ++ [newline]
  ++ lit "(A:1.0,D:2.0);" ++ [newline].

Definition fs (name : str) : option str :=
  if str_eqb name (lit "trees.tre") then Some trees_tre
  else if str_eqb name (lit "other.tre") then Some other_tre
  else None.

End Sample.

(** ** The script, over what it imports *)

(** What a run does to the file system, in order. *)
Inductive io_event : Type :=
| FileRead (name : str)
| FileWritten (name content : str).

Section Script.

(** Python's [float]: the values, [float(s)] ([None] is [ValueError]),
    [x * 0.5] and [str(x)]. *)
Variable float_t : Type.
Variable float : str -> option float_t.
Variable times_half : float_t -> float_t.
Variable str_of_float : float_t -> str.

(** [d.iteritems()]: the entries of a dictionary in the order the
    interpreter's hash table yields them. *)
Variable iteritems : dict -> list (str * str).

(** Lines 120-126: dendropy reads the Newick text, left-ladderizes the
    tree and writes it back; [None] when it raises. *)
Variable ladderize : str -> option str.

(** [GSO.rmext]: the file name without its extension. *)
Variable rmext : str -> str.

(** Step 1 of the loop body (lines 62-75): the presence check, and the
    branch length after [key + ":"] replaced by its half.  Returns the new
    text and [brlen]. *)
Definition adjust_brlen (inTree key : str) : result (str * float_t) :=
  if negb (contains inTree key) then Fail MissingTaxonError
  else
    token <- or_fail HelperUndefined
               (GSO.exstr inTree (key ++ lit ":") (lit ")")) ;;
    match float token with
    | Some brlen =>
        inTree' <- or_fail HelperUndefined
                     (GSO.replstr inTree (key ++ lit ":") (lit ")")
                        (str_of_float (times_half brlen))) ;;
        Ok (inTree', brlen)
    | None =>
        (* except ValueError *)
        token <- or_fail HelperUndefined
                   (GSO.exstr inTree (key ++ lit ":") (lit ",")) ;;
        brlen <- or_fail ValueError (float token) ;;
        inTree' <- or_fail HelperUndefined
                     (GSO.replstr inTree (key ++ lit ":") (lit ",")
                        (str_of_float (times_half brlen))) ;;
        Ok (inTree', brlen)
    end.

(** Steps 2-4 of the loop body (lines 78-88). *)
Definition splice_hybrid (inTree key val : str) (brlen : float_t)
  : result str :=
  let half := str_of_float (times_half brlen) in
  '(split1_0, split1_1) <- or_fail HelperUndefined
                             (GSO.csplit inTree key true) ;;
  '(aList_1, aList_2) <- or_fail HelperUndefined
                           (GSO.csplit split1_1 (key ++ lit ":" ++ half) false) ;;
  let hybStr :=
    lit "(h#" ++ val ++ lit ":" ++ half ++ lit "," ++ aList_1
      ++ lit "):" ++ half in
  Ok (join_empty [split1_0; hybStr; aList_2]).

(** The loop body (lines 59-88) for one entry. *)
Definition addHybr_entry (inTree : str) (entry : str * str) : result str :=
  let '(key, val) := entry in
  '(inTree', brlen) <- adjust_brlen inTree key ;;
  splice_hybrid inTree' key val brlen.

(** One turn of [for key, val in hybrDict.iteritems()]: nothing runs once
    the script has ended. *)
Definition addHybr_step (inTree : result str) (entry : str * str)
  : result str :=
  inTree' <- inTree ;; addHybr_entry inTree' entry.

Definition addHybrDict (inTree : str) (hybrDict : dict) : result str :=
  fold_left addHybr_step (iteritems hybrDict) (Ok inTree).

(** The body of [for treeStr in trees] (lines 119-145). *)
Definition process_tree (parentInfo treeStr : str) : result str :=
  treeStr <- or_fail TreeLibraryError (ladderize treeStr) ;;
  let treeStr := drop_brackets None treeStr in
  let treeStr := rstrip (lstrip treeStr) in
  aDict <- parse_parentInfo parentInfo ;;
  outTree <- addHybrDict treeStr aDict ;;
  Ok (addNodeNumb outTree).

(** Lines 148-151: the name of the output file. *)
Definition output_name (treeName parentInfo : str) : str :=
  if contains parentInfo (lit ",")
  then rmext treeName ++ lit ".wHybrid.tre"
  else rmext treeName ++ lit ".wSister.tre".

(** Lines 109-153: [main] after the likelihood check.  [fs] gives the
    content of the files that exist. *)
Definition run_trees (fs : str -> option str) (treeName parentInfo : str)
  : result unit * list io_event :=
  match fs treeName with
  | None => (Fail IOError, [])
  | Some content =>
      let inData := readlines content in
      let trees := filter is_tree_line inData in
      match for_each (process_tree parentInfo) trees with
      | Fail e => (Fail e, [FileRead treeName])
      | Ok outList =>
          (Ok tt, [FileRead treeName;
                   FileWritten (output_name treeName parentInfo)
                               (join [newline] outList)])
      end
  end.

Definition main (fs : str -> option str) (treeName parentInfo : str)
  : result unit * list io_event :=
  match check_likelihoods parentInfo with
  | Fail e => (Fail e, [])
  | Ok _ => run_trees fs treeName parentInfo
  end.

(** * Properties *)

(** ** Node labeler *)

Example addNodeNumb_ex1 :
  addNodeNumb (lit "((A,B),C);") = lit "((A,B)s4,C)s3;".
Proof. reflexivity. Qed.

Example addNodeNumb_ex2 : addNodeNumb (lit "A;") = lit "A;".
Proof. reflexivity. Qed.

Lemma join_empty_append (pieces : list str) (piece : str) :
  join_empty (pieces ++ [piece]) = join_empty pieces ++ piece.
Proof.
  unfold join_empty. rewrite concat_app. simpl. now rewrite app_nil_r.
Qed.

Lemma addNodeNumb_loop (inTree : str) :
  forall outTree nNodes,
    join_empty (fst (fold_left addNodeNumb_body inTree (outTree, nNodes)))
    = join_empty outTree ++ labelNodes_scan nNodes inTree.
Proof.
  induction inTree as [|c rest IH]; intros outTree nNodes; simpl.
  - now rewrite app_nil_r.
  - destruct (Ascii.eqb c ")"); rewrite IH, join_empty_append, <- app_assoc;
      reflexivity.
Qed.

Lemma addNodeNumb_scan (inTree : str) :
  addNodeNumb inTree
  = labelNodes_scan (Z.of_nat (count inTree ")") * 2) inTree.
Proof.
  unfold addNodeNumb.
  pose proof (addNodeNumb_loop inTree [] (Z.of_nat (count inTree ")") * 2)) as H.
  destruct (fold_left addNodeNumb_body inTree _) as [outTree n].
  exact H.
Qed.

Lemma scan_no_paren (text : str) :
  forall counter, count text ")" = 0 -> labelNodes_scan counter text = text.
Proof.
  unfold count.
  induction text as [|c rest IH]; intros counter H; simpl in *; [reflexivity|].
  destruct (ascii_dec c ")") as [->|Hc]; [discriminate|].
  apply Ascii.eqb_neq in Hc. rewrite Hc. now rewrite IH.
Qed.

(** C3: [addNodeNumb] is the specified state machine: one left-to-right
    scan whose counter starts at twice the number of closing parentheses;
    each closing parenthesis is emitted followed by "s" and the counter,
    which then drops by one; any other character is emitted as it is.  A
    text without a closing parenthesis comes back unchanged. *)
Theorem addNodeNumb_refines_labelNodes :
  forall inTree : str,
    addNodeNumb inTree = labelNodes inTree
    /\ (count inTree ")" = 0 -> addNodeNumb inTree = inTree).
Proof.
  intro inTree. split.
  - rewrite addNodeNumb_scan. unfold labelNodes. now rewrite Z.mul_comm.
  - intro H. rewrite addNodeNumb_scan. now apply scan_no_paren.
Qed.

Lemma label_loop (inTree : str) :
  forall labels nNodes,
    fst (fold_left label_body inTree (labels, nNodes))
    = labels ++ countdown nNodes (count inTree ")").
Proof.
  unfold count.
  induction inTree as [|c rest IH]; intros labels nNodes; simpl.
  - now rewrite app_nil_r.
  - destruct (ascii_dec c ")") as [->|Hc].
    + rewrite Ascii.eqb_refl, IH, <- app_assoc. reflexivity.
    + apply Ascii.eqb_neq in Hc. rewrite Hc. apply IH.
Qed.

Lemma node_labels_countdown (inTree : str) :
  node_labels inTree
  = countdown (Z.of_nat (count inTree ")") * 2) (count inTree ")").
Proof. unfold node_labels. now rewrite label_loop. Qed.

Lemma weave_countdown (text : str) :
  forall n, weave text (countdown n (count text ")")) = labelNodes_scan n text.
Proof.
  unfold count.
  induction text as [|c rest IH]; intro n; simpl; [reflexivity|].
  destruct (ascii_dec c ")") as [->|Hc].
  - rewrite Ascii.eqb_refl. simpl. now rewrite IH.
  - apply Ascii.eqb_neq in Hc. rewrite Hc. now rewrite IH.
Qed.

Lemma countdown_length (k : nat) : forall n, length (countdown n k) = k.
Proof. induction k; intro n; simpl; [|rewrite IHk]; reflexivity. Qed.

Lemma countdown_bound (k : nat) :
  forall n x, In x (countdown n k) -> (n - Z.of_nat k < x <= n)%Z.
Proof.
  induction k as [|k IH]; intros n x Hx; simpl in Hx; [contradiction|].
  destruct Hx as [<-|Hx]; [lia|]. apply IH in Hx. lia.
Qed.

Lemma countdown_sorted (k : nat) :
  forall n, StronglySorted Z.gt (countdown n k).
Proof.
  induction k as [|k IH]; intro n; simpl; constructor; [apply IH|].
  apply Forall_forall. intros x Hx. apply countdown_bound in Hx. lia.
Qed.

Lemma countdown_last (k : nat) :
  forall n d, last (countdown n (S k)) d = (n - Z.of_nat k)%Z.
Proof.
  induction k as [|k IH]; intros n d.
  - simpl. lia.
  - change (countdown n (S (S k))) with (n :: countdown (n - 1) (S k)).
    change (last (n :: countdown (n - 1) (S k)) d)
      with (last (countdown (n - 1) (S k)) d).
    rewrite IH. lia.
Qed.

(** C4: with [N >= 1] closing parentheses, the labels attached to the
    successive closing parentheses are strictly decreasing, the first is
    [2 * N] and the last is [2 * N - (N - 1)]. *)
Theorem node_labels_strictly_decreasing :
  forall (inTree : str) (N : Z),
    N = Z.of_nat (count inTree ")") ->
    (1 <= N)%Z ->
    addNodeNumb inTree = weave inTree (node_labels inTree)
    /\ length (node_labels inTree) = count inTree ")"
    /\ StronglySorted Z.gt (node_labels inTree)
    /\ hd_error (node_labels inTree) = Some (2 * N)%Z
    /\ last (node_labels inTree) 0%Z = (2 * N - (N - 1))%Z.
Proof.
  intros inTree N HN Hpos.
  rewrite node_labels_countdown, addNodeNumb_scan, weave_countdown.
  subst N.
  destruct (count inTree ")") as [|k]; [simpl in Hpos; lia|].
  repeat split.
  - apply countdown_length.
  - apply countdown_sorted.
  - simpl. f_equal. lia.
  - rewrite countdown_last. lia.
Qed.

Lemma node_labels_strictly_decreasing_witness :
  addNodeNumb (lit "((A,B),C);")
  = weave (lit "((A,B),C);") (node_labels (lit "((A,B),C);"))
  /\ length (node_labels (lit "((A,B),C);")) = count (lit "((A,B),C);") ")"
  /\ StronglySorted Z.gt (node_labels (lit "((A,B),C);"))
  /\ hd_error (node_labels (lit "((A,B),C);")) = Some (2 * 2)%Z
  /\ last (node_labels (lit "((A,B),C);")) 0%Z = (2 * 2 - (2 - 1))%Z.
Proof.
  apply (node_labels_strictly_decreasing (lit "((A,B),C);") 2%Z).
  - reflexivity.
  - lia.
Defined.

Example node_labels_ex : node_labels (lit "((A,B),C);") = [4; 3]%Z.
Proof. reflexivity. Qed.

(** The decimal rendering of an integer holds digits and at most a sign. *)
Lemma string_of_uint_no_paren (d : Decimal.uint) :
  ~ In ")" (lit (NilEmpty.string_of_uint d)).
Proof.
  induction d; simpl; intro H;
    [exact H | destruct H as [H|H]; [discriminate H | auto] ..].
Qed.

Lemma str_of_int_no_paren (n : Z) : ~ In ")" (str_of_int n).
Proof.
  unfold str_of_int.
  assert (Hu : forall d, ~ In ")" (lit (NilZero.string_of_uint d))).
  { intros [|d|d|d|d|d|d|d|d|d|d];
      [simpl; intros [H|[]]; discriminate H | apply string_of_uint_no_paren ..]. }
  destruct (Z.to_int n) as [d|d]; simpl.
  - apply Hu.
  - intros [H|H]; [discriminate H | now apply Hu in H].
Qed.

Lemma count_app (s t : str) (c : ascii) :
  count (s ++ t) c = count s c + count t c.
Proof. apply count_occ_app. Qed.

Lemma count_not_In (s : str) (c : ascii) : ~ In c s -> count s c = 0.
Proof. apply count_occ_not_In. Qed.

Lemma count_cons_eq (s : str) (c : ascii) : count (c :: s) c = S (count s c).
Proof. unfold count. simpl. destruct (ascii_dec c c); congruence. Qed.

Lemma count_cons_neq (s : str) (c d : ascii) :
  d <> c -> count (d :: s) c = count s c.
Proof. intro H. unfold count. simpl. destruct (ascii_dec d c); congruence. Qed.

Lemma scan_count (text : str) :
  forall counter, count (labelNodes_scan counter text) ")" = count text ")".
Proof.
  induction text as [|c rest IH]; intro counter; simpl; [reflexivity|].
  destruct (ascii_dec c ")") as [->|Hc].
  - rewrite Ascii.eqb_refl, !count_cons_eq, count_cons_neq by discriminate.
    rewrite count_app, IH, count_not_In by apply str_of_int_no_paren.
    reflexivity.
  - rewrite (proj2 (Ascii.eqb_neq _ _) Hc), !count_cons_neq by assumption.
    apply IH.
Qed.

Lemma scan_length (text : str) :
  forall counter,
    length text + count text ")" <= length (labelNodes_scan counter text).
Proof.
  induction text as [|c rest IH]; intro counter; simpl; [lia|].
  unfold count in *. simpl.
  destruct (ascii_dec c ")") as [->|Hc].
  - rewrite Ascii.eqb_refl. simpl. rewrite length_app.
    specialize (IH (counter - 1)%Z). lia.
  - apply Ascii.eqb_neq in Hc. rewrite Hc. simpl.
    specialize (IH counter). lia.
Qed.

Lemma addNodeNumb_count (inTree : str) :
  count (addNodeNumb inTree) ")" = count inTree ")".
Proof. rewrite addNodeNumb_scan. apply scan_count. Qed.

(** C8, as the claim states it, fails: a second run labels the closing
    parentheses again. *)
Lemma addNodeNumb_relabels :
  addNodeNumb (addNodeNumb (lit "(A,B);")) = lit "(A,B)s2s2;"
  /\ addNodeNumb (addNodeNumb (lit "(A,B);")) <> addNodeNumb (lit "(A,B);").
Proof. split; [reflexivity | discriminate]. Qed.

(** C8, amended: the labeler acts on every closing parenthesis, suffixed
    or not.  Its output has as many closing parentheses as its input, so a
    second run appends a label to each of them again, and it leaves the
    labeled text unchanged exactly when the input has no closing
    parenthesis. *)
Theorem addNodeNumb_twice :
  forall inTree : str,
    count (addNodeNumb inTree) ")" = count inTree ")"
    /\ length (addNodeNumb inTree) + count inTree ")"
       <= length (addNodeNumb (addNodeNumb inTree))
    /\ (addNodeNumb (addNodeNumb inTree) = addNodeNumb inTree
        <-> count inTree ")" = 0).
Proof.
  intro inTree.
  pose proof (addNodeNumb_count inTree) as Hc.
  assert (Hlen : length (addNodeNumb inTree) + count inTree ")"
                 <= length (addNodeNumb (addNodeNumb inTree))).
  { rewrite <- Hc at 1. rewrite (addNodeNumb_scan (addNodeNumb inTree)).
    apply scan_length. }
  repeat split; try assumption.
  - intro H. rewrite H in Hlen. lia.
  - intro H. rewrite (addNodeNumb_scan (addNodeNumb inTree)).
    apply scan_no_paren. now rewrite Hc.
Qed.

(** ** Substring search *)

Lemma strip_prefix_app (needle rest : str) :
  strip_prefix needle (needle ++ rest) = Some rest.
Proof.
  induction needle as [|a needle IH]; simpl; [reflexivity|].
  now rewrite Ascii.eqb_refl.
Qed.

Lemma strip_prefix_sound (needle : str) :
  forall hay after, strip_prefix needle hay = Some after -> hay = needle ++ after.
Proof.
  induction needle as [|a needle IH]; intros hay after H; simpl in *.
  - now inversion H.
  - destruct hay as [|b hay]; [discriminate|].
    destruct (Ascii.eqb a b) eqn:E; [|discriminate].
    apply Ascii.eqb_eq in E. subst b. f_equal. now apply IH.
Qed.

Lemma split_first_unfold (needle hay : str) :
  split_first needle hay =
  match strip_prefix needle hay with
  | Some after => Some ([], after)
  | None =>
      match hay with
      | [] => None
      | c :: rest =>
          match split_first needle rest with
          | Some (before, after) => Some (c :: before, after)
          | None => None
          end
      end
  end.
Proof. destruct hay; reflexivity. Qed.

Lemma split_first_sound (needle hay : str) :
  forall before after,
    split_first needle hay = Some (before, after) ->
    hay = before ++ needle ++ after.
Proof.
  induction hay as [|c rest IH]; intros before after H;
    rewrite split_first_unfold in H;
    destruct (strip_prefix needle _) as [a|] eqn:P.
  - inversion H; subst. exact (strip_prefix_sound _ _ _ P).
  - discriminate.
  - inversion H; subst. exact (strip_prefix_sound _ _ _ P).
  - destruct (split_first needle rest) as [[b a]|]; [|discriminate].
    inversion H; subst. simpl. f_equal. now apply IH.
Qed.

Lemma split_first_here (needle rest : str) :
  split_first needle (needle ++ rest) = Some ([], rest).
Proof. now rewrite split_first_unfold, strip_prefix_app. Qed.

(** The occurrence that [split_first] finds is the first one. *)
Lemma split_first_complete (needle : str) :
  forall before after,
    exists before' after',
      split_first needle (before ++ needle ++ after) = Some (before', after')
      /\ length before' <= length before.
Proof.
  induction before as [|c before IH]; intros post.
  - exists [], post. split; [exact (split_first_here needle post) | simpl; lia].
  - rewrite split_first_unfold.
    destruct (strip_prefix needle _) as [a|].
    + exists [], a. split; [reflexivity | simpl; lia].
    + simpl. destruct (IH post) as (b' & a' & -> & Hlen).
      exists (c :: b'), a'. split; [reflexivity | simpl; lia].
Qed.

Lemma split_first_least (needle hay : str) :
  forall before after before' after',
    split_first needle hay = Some (before, after) ->
    hay = before' ++ needle ++ after' ->
    length before <= length before'.
Proof.
  intros before after before' after' H ->.
  destruct (split_first_complete needle before' after') as (b & a & E & Hlen).
  rewrite E in H. now inversion H; subst.
Qed.

Lemma contains_occurs (hay needle : str) :
  contains hay needle = true
  <-> exists before after, hay = before ++ needle ++ after.
Proof.
  unfold contains. split.
  - destruct (split_first needle hay) as [[b a]|] eqn:E; [|discriminate].
    intros _. exists b, a. now apply split_first_sound.
  - intros (b & a & ->).
    destruct (split_first_complete needle b a) as (b' & a' & -> & _).
    reflexivity.
Qed.

(** A one-character delimiter ends the token that does not hold it. *)
Lemma split_first_char (d : ascii) (token : str) :
  forall rest,
    ~ In d token ->
    split_first [d] (token ++ d :: rest) = Some (token, rest).
Proof.
  induction token as [|c token IH]; intros rest Hd.
  - apply (split_first_here [d] rest).
  - rewrite split_first_unfold. simpl.
    destruct (Ascii.eqb d c) eqn:E.
    + apply Ascii.eqb_eq in E. subst c. exfalso. apply Hd. now left.
    + rewrite IH; [reflexivity|]. intro H. apply Hd. now right.
Qed.

Lemma in_split_first (d : ascii) (s : str) :
  In d s -> exists s1 s2, s = s1 ++ d :: s2 /\ ~ In d s1.
Proof.
  induction s as [|c s IH]; intro H; [contradiction|].
  destruct (ascii_dec c d) as [->|Hc].
  - exists [], s. split; [reflexivity | intros []].
  - destruct H as [H|H]; [congruence|].
    destruct (IH H) as (s1 & s2 & -> & Hs1).
    exists (c :: s1), s2. split; [reflexivity|].
    intros [E|E]; [congruence | contradiction].
Qed.

(** Whether the needle starts a text is decided by as many characters as
    the needle has. *)
Lemma strip_prefix_local (needle : str) :
  forall hay more,
    length needle <= length hay ->
    strip_prefix needle (hay ++ more)
    = option_map (fun rest => rest ++ more) (strip_prefix needle hay).
Proof.
  induction needle as [|a needle IH]; intros hay more Hlen; [reflexivity|].
  destruct hay as [|b hay]; simpl in *; [lia|].
  destruct (Ascii.eqb a b); [|reflexivity]. apply IH. lia.
Qed.

(** The first occurrence of the needle stays where it is when the text
    after it changes. *)
Lemma split_first_stable (needle : str) :
  forall before after after',
    split_first needle (before ++ needle ++ after) = Some (before, after) ->
    split_first needle (before ++ needle ++ after') = Some (before, after').
Proof.
  induction before as [|c before IH]; intros post post' H.
  - exact (split_first_here needle post').
  - rewrite split_first_unfold in H. rewrite split_first_unfold.
    rewrite !app_assoc in *.
    rewrite strip_prefix_local in * by (rewrite length_app; lia).
    destruct (strip_prefix needle ((c :: before) ++ needle)); simpl in *;
      [discriminate H|].
    rewrite <- !app_assoc in *.
    destruct (split_first needle (before ++ needle ++ post)) as [[b a]|] eqn:E;
      [|discriminate H].
    inversion H; subst b a.
    now rewrite (IH post post' E).
Qed.

(** ** The helpers, where the specification defines them *)

Lemma exstr_token (instr delim1 before token rest : str) (d : ascii) :
  split_first delim1 instr = Some (before, token ++ d :: rest) ->
  ~ In d token ->
  GSO.exstr instr delim1 [d] = Some token.
Proof.
  intros H Hd. unfold GSO.exstr. rewrite H.
  now rewrite split_first_char.
Qed.

Lemma replstr_token (instr delim1 before token rest repl : str) (d : ascii) :
  split_first delim1 instr = Some (before, token ++ d :: rest) ->
  ~ In d token ->
  GSO.replstr instr delim1 [d] repl
  = Some (before ++ delim1 ++ repl ++ d :: rest).
Proof.
  intros H Hd. unfold GSO.replstr. rewrite H.
  now rewrite split_first_char.
Qed.

(** ** Halving and splicing *)

(** No text with a comma in it is a number for [float]. *)
Hypothesis float_rejects_comma : forall s, In "," s -> float s = None.

(** A dictionary is iterated entry by entry, each entry once. *)
Hypothesis iteritems_entries : forall d, Permutation (iteritems d) d.

Lemma key_present (inTree key before rest : str) :
  split_first (key ++ lit ":") inTree = Some (before, rest) ->
  contains inTree key = true.
Proof.
  intro H. apply split_first_sound in H. rewrite <- app_assoc in H.
  apply contains_occurs. now exists before, (lit ":" ++ rest).
Qed.

(** The [try] of lines 70-72, when the token ends at a closing
    parenthesis. *)
Lemma adjust_brlen_paren
      (inTree key before token rest : str) (brlen : float_t) :
  split_first (key ++ lit ":") inTree = Some (before, token ++ ")" :: rest) ->
  ~ In ")" token ->
  float token = Some brlen ->
  adjust_brlen inTree key
  = Ok (before ++ (key ++ lit ":") ++ str_of_float (times_half brlen)
          ++ ")" :: rest,
        brlen).
Proof.
  intros Hsplit Hparen Hfloat. unfold adjust_brlen.
  rewrite (key_present _ _ _ _ Hsplit). cbn [negb].
  change (lit ")") with [")"].
  rewrite (exstr_token _ _ _ _ _ _ Hsplit Hparen). cbn [or_fail bind].
  rewrite Hfloat, (replstr_token _ _ _ _ _ _ _ Hsplit Hparen).
  reflexivity.
Qed.

(** The [except] of lines 73-75, when the token ends at a comma: what
    lies before the next closing parenthesis is no number. *)
Lemma adjust_brlen_comma
      (inTree key before token rest : str) (brlen : float_t) :
  split_first (key ++ lit ":") inTree = Some (before, token ++ "," :: rest) ->
  ~ In ")" token ->
  ~ In "," token ->
  In ")" rest ->
  float token = Some brlen ->
  adjust_brlen inTree key
  = Ok (before ++ (key ++ lit ":") ++ str_of_float (times_half brlen)
          ++ "," :: rest,
        brlen).
Proof.
  intros Hsplit Hparen Hcomma Hrest Hfloat. unfold adjust_brlen.
  rewrite (key_present _ _ _ _ Hsplit). cbn [negb].
  change (lit ")") with [")"]. change (lit ",") with [","].
  destruct (in_split_first _ _ Hrest) as (r1 & r2 & Er & Hr1).
  assert (Hsplit' : split_first (key ++ lit ":") inTree
                    = Some (before, (token ++ "," :: r1) ++ ")" :: r2)).
  { rewrite Hsplit, Er, <- app_assoc. reflexivity. }
  assert (Hparen' : ~ In ")" (token ++ "," :: r1)).
  { intro H. apply in_app_or in H. destruct H as [H|[H|H]];
      [contradiction | discriminate | contradiction]. }
  rewrite (exstr_token _ _ _ _ _ _ Hsplit' Hparen'). cbn [or_fail bind].
  rewrite float_rejects_comma by (apply in_or_app; right; now left).
  rewrite (exstr_token _ _ _ _ _ _ Hsplit Hcomma). cbn [or_fail bind].
  rewrite Hfloat. cbn [or_fail bind].
  rewrite (replstr_token _ _ _ _ _ _ _ Hsplit Hcomma).
  reflexivity.
Qed.

(** Lines 78-88 before [''.join]: the three pieces of [aList]. *)
Lemma splice_hybrid_pieces
      (inTree key val prefix suffix : str) (brlen : float_t) :
  split_first key inTree
  = Some (prefix, lit ":" ++ str_of_float (times_half brlen) ++ suffix) ->
  splice_hybrid inTree key val brlen
  = Ok (join_empty
          [prefix;
           lit "(h#" ++ val ++ lit ":" ++ str_of_float (times_half brlen)
             ++ lit "," ++ (key ++ lit ":" ++ str_of_float (times_half brlen))
             ++ lit "):" ++ str_of_float (times_half brlen);
           suffix]).
Proof.
  intro Hsplit. unfold splice_hybrid, GSO.csplit.
  rewrite Hsplit. cbn [or_fail bind].
  replace (key ++ lit ":" ++ str_of_float (times_half brlen) ++ suffix)
    with ((key ++ lit ":" ++ str_of_float (times_half brlen)) ++ suffix)
    by now rewrite <- !app_assoc.
  rewrite split_first_here. reflexivity.
Qed.

(** C2: on a text in which the first occurrence of the label is followed
    by [":"] and the half length, the splice returns the prefix, the new
    clade around [label + ":" + half], and the suffix. *)
Theorem splice_hybrid_shape :
  forall (inTree key val prefix suffix half : str) (brlen : float_t),
    half = str_of_float (times_half brlen) ->
    split_first key inTree = Some (prefix, lit ":" ++ half ++ suffix) ->
    inTree = prefix ++ (key ++ lit ":" ++ half) ++ suffix
    /\ splice_hybrid inTree key val brlen
       = Ok (prefix
               ++ lit "(h#" ++ val ++ lit ":" ++ half ++ lit ","
               ++ (key ++ lit ":" ++ half) ++ lit "):" ++ half
               ++ suffix).
Proof.
  intros inTree key val prefix suffix half brlen -> Hsplit.
  split.
  - apply split_first_sound in Hsplit. rewrite Hsplit.
    now rewrite <- !app_assoc.
  - rewrite (splice_hybrid_pieces _ _ val _ _ _ Hsplit).
    unfold join_empty. cbn [concat].
    now rewrite app_nil_r, <- !app_assoc.
Qed.

(** The whole loop body, where the label first occurs in the text as
    [key + ":"]: the halved branch length, then the new clade around it. *)
Lemma addHybr_entry_splices :
  forall (inTree key val before token rest : str) (d : ascii) (brlen : float_t),
    split_first key inTree = Some (before, lit ":" ++ token ++ d :: rest) ->
    split_first (key ++ lit ":") inTree = Some (before, token ++ d :: rest) ->
    d = ")" \/ d = "," ->
    ~ In ")" token ->
    ~ In "," token ->
    float token = Some brlen ->
    (d = "," -> In ")" rest) ->
    addHybr_entry inTree (key, val)
    = Ok (before
            ++ lit "(h#" ++ val ++ lit ":" ++ str_of_float (times_half brlen)
            ++ lit ","
            ++ (key ++ lit ":" ++ str_of_float (times_half brlen))
            ++ lit "):" ++ str_of_float (times_half brlen)
            ++ d :: rest).
Proof.
  intros inTree key val before token rest d brlen
         Hkey Hsplit Hd Hparen Hcomma Hfloat Hrest.
  assert (Hadj : adjust_brlen inTree key
                 = Ok (before ++ key ++ lit ":"
                         ++ str_of_float (times_half brlen) ++ d :: rest,
                       brlen)).
  { destruct Hd as [-> | ->].
    - rewrite (adjust_brlen_paren _ _ _ _ _ _ Hsplit Hparen Hfloat).
      now rewrite <- app_assoc.
    - rewrite (adjust_brlen_comma _ _ _ _ _ _ Hsplit Hparen Hcomma
                 (Hrest eq_refl) Hfloat).
      now rewrite <- app_assoc. }
  unfold addHybr_entry. rewrite Hadj. cbn [bind].
  pose proof (split_first_sound _ _ _ _ Hkey) as Htext.
  rewrite Htext in Hkey.
  apply (split_first_stable key before _
           (lit ":" ++ str_of_float (times_half brlen) ++ d :: rest)) in Hkey.
  rewrite (splice_hybrid_pieces _ _ val _ _ _ Hkey).
  unfold join_empty. cbn [concat].
  now rewrite app_nil_r, <- !app_assoc.
Qed.

(** ** The loop over the hybrid dictionary *)

Lemma adjust_brlen_missing (inTree key : str) :
  contains inTree key = false ->
  adjust_brlen inTree key = Fail MissingTaxonError.
Proof. intro H. unfold adjust_brlen. now rewrite H. Qed.

Lemma adjust_brlen_present (inTree key : str) :
  contains inTree key = true ->
  adjust_brlen inTree key <> Fail MissingTaxonError.
Proof.
  intro H. unfold adjust_brlen. rewrite H. cbn [negb].
  destruct (GSO.exstr inTree (key ++ lit ":") (lit ")")) as [token|];
    cbn [or_fail bind]; [|discriminate].
  destruct (float token) as [brlen|].
  - destruct (GSO.replstr _ _ _ _); cbn [or_fail bind]; discriminate.
  - destruct (GSO.exstr inTree (key ++ lit ":") (lit ",")) as [token'|];
      cbn [or_fail bind]; [|discriminate].
    destruct (float token') as [brlen|]; cbn [or_fail bind]; [|discriminate].
    destruct (GSO.replstr _ _ _ _); cbn [or_fail bind]; discriminate.
Qed.

Lemma splice_hybrid_not_missing (inTree key val : str) (brlen : float_t) :
  splice_hybrid inTree key val brlen <> Fail MissingTaxonError.
Proof.
  unfold splice_hybrid.
  destruct (GSO.csplit inTree key true) as [[split1_0 split1_1]|];
    cbn [or_fail bind]; [|discriminate].
  destruct (GSO.csplit split1_1 _ false) as [[aList_1 aList_2]|];
    cbn [or_fail bind]; discriminate.
Qed.

Lemma addHybr_entry_missing (inTree key val : str) :
  (~ exists before after, inTree = before ++ key ++ after) ->
  addHybr_entry inTree (key, val) = Fail MissingTaxonError.
Proof.
  intro H. unfold addHybr_entry. rewrite adjust_brlen_missing; [reflexivity|].
  destruct (contains inTree key) eqn:E; [|reflexivity].
  apply contains_occurs in E. contradiction.
Qed.

Lemma addHybr_entry_present (inTree key val : str) :
  (exists before after, inTree = before ++ key ++ after) ->
  addHybr_entry inTree (key, val) <> Fail MissingTaxonError.
Proof.
  intro H. apply contains_occurs in H. unfold addHybr_entry.
  pose proof (adjust_brlen_present _ _ H) as Hadj.
  destruct (adjust_brlen inTree key) as [[inTree' brlen]|e]; cbn [bind].
  - apply splice_hybrid_not_missing.
  - congruence.
Qed.

(** A failure ends the loop: the entries that follow are not processed. *)
Lemma addHybr_loop_fail (entries : list (str * str)) (e : failure) :
  fold_left addHybr_step entries (Fail e) = Fail e.
Proof. induction entries as [|entry entries IH]; simpl; [reflexivity | exact IH]. Qed.

(** ** The equal-likelihood check *)

(** [r] matches at the start of [s], and the match the matcher prefers
    captures [groups] and leaves [rest]. *)
Definition prefers (r : regex) (s : str) (groups : list str) (rest : str)
  : Prop :=
  exists others, rmatch r s = (groups, rest) :: others.

(** A greedy run stops at [rest]: at the end of the text or at a character
    outside the class. *)
Definition stops (cls : ascii -> bool) (rest : str) : Prop :=
  match rest with
  | [] => True
  | c :: _ => cls c = false
  end.

Lemma greedy_run (cls : ascii -> bool) (run rest : str) :
  forallb cls run = true ->
  stops cls rest ->
  exists others, greedy cls (run ++ rest) = rest :: others.
Proof.
  intros Hrun Hstop. induction run as [|c run IH]; simpl in *.
  - destruct rest as [|c rest]; [now exists []|].
    simpl in *. rewrite Hstop. now exists [].
  - apply andb_prop in Hrun. destruct Hrun as [Hc Hrun]. rewrite Hc.
    destruct (IH Hrun) as [others ->]. now eexists.
Qed.

Lemma prefers_Chr (c : ascii) (rest : str) : prefers (Chr c) (c :: rest) [] rest.
Proof. exists []. simpl. now rewrite Ascii.eqb_refl. Qed.

Lemma prefers_Star (cls : ascii -> bool) (run rest : str) :
  forallb cls run = true -> stops cls rest ->
  prefers (Star cls) (run ++ rest) [] rest.
Proof.
  intros Hrun Hstop. destruct (greedy_run _ _ _ Hrun Hstop) as [others E].
  eexists. simpl. rewrite E. reflexivity.
Qed.

Lemma prefers_Plus (cls : ascii -> bool) (run rest : str) :
  forallb cls run = true -> run <> [] -> stops cls rest ->
  prefers (Plus cls) (run ++ rest) [] rest.
Proof.
  intros Hrun Hne Hstop. destruct run as [|c run]; [congruence|].
  simpl in Hrun. apply andb_prop in Hrun. destruct Hrun as [Hc Hrun].
  destruct (greedy_run _ _ _ Hrun Hstop) as [others E].
  eexists. simpl. rewrite Hc, E. reflexivity.
Qed.

Lemma prefers_Seq (r1 r2 : regex) (s s1 s2 : str) (g1 g2 : list str) :
  prefers r1 s g1 s1 -> prefers r2 s1 g2 s2 ->
  prefers (Seq r1 r2) s (g1 ++ g2) s2.
Proof.
  intros [o1 E1] [o2 E2]. eexists. simpl. rewrite E1. simpl.
  rewrite E2. reflexivity.
Qed.

Lemma prefers_Group (r : regex) (matched rest : str) (g : list str) :
  prefers r (matched ++ rest) g rest ->
  prefers (Group r) (matched ++ rest) (matched :: g) rest.
Proof.
  intros [others E]. eexists. simpl. rewrite E. simpl.
  rewrite length_app, Nat.add_sub, firstn_app, Nat.sub_diag, firstn_all.
  simpl. rewrite app_nil_r. reflexivity.
Qed.

Lemma re_search_prefers (r : regex) (s rest : str) (groups : list str) :
  prefers r s groups rest -> re_search r s = Some groups.
Proof. intros [others E]. destruct s; simpl; now rewrite E. Qed.

Lemma prefers_likelihood (int_part frac_part rest : str) :
  forallb is_digit int_part = true ->
  forallb is_digit frac_part = true ->
  frac_part <> [] ->
  stops is_digit rest ->
  prefers likelihood_re ((int_part ++ lit "." ++ frac_part) ++ rest) [] rest.
Proof.
  intros Hi Hf Hne Hstop. unfold likelihood_re.
  rewrite <- !app_assoc.
  change [] with (@nil str ++ [] ++ []).
  eapply prefers_Seq; [now apply prefers_Star|].
  eapply prefers_Seq; [apply prefers_Chr|].
  now apply prefers_Plus.
Qed.

(** The groups that line 101 captures on a specification of two entries,
    each a label of word characters and a decimal with a point. *)
Lemma re_search_parents (label1 label2 int1 frac1 int2 frac2 : str) :
  forallb is_word label1 = true -> label1 <> [] ->
  forallb is_word label2 = true -> label2 <> [] ->
  forallb is_digit int1 = true ->
  forallb is_digit frac1 = true -> frac1 <> [] ->
  forallb is_digit int2 = true ->
  forallb is_digit frac2 = true -> frac2 <> [] ->
  re_search parents_re
    (label1 ++ lit ":" ++ (int1 ++ lit "." ++ frac1) ++ lit ","
       ++ label2 ++ lit ":" ++ (int2 ++ lit "." ++ frac2))
  = Some [int1 ++ lit "." ++ frac1; int2 ++ lit "." ++ frac2].
Proof.
  intros Hl1 Hn1 Hl2 Hn2 Hi1 Hf1 Hfn1 Hi2 Hf2 Hfn2.
  apply re_search_prefers with (rest := []). unfold parents_re.
  change [int1 ++ lit "." ++ frac1; int2 ++ lit "." ++ frac2]
    with ([] ++ [] ++ [int1 ++ lit "." ++ frac1] ++ [] ++ [] ++ []
             ++ [int2 ++ lit "." ++ frac2]).
  eapply prefers_Seq; [apply prefers_Plus; [assumption..|reflexivity]|].
  eapply prefers_Seq; [apply prefers_Chr|].
  eapply prefers_Seq.
  { apply prefers_Group. apply prefers_likelihood; try assumption. reflexivity. }
  eapply prefers_Seq; [apply prefers_Chr|].
  eapply prefers_Seq; [apply prefers_Plus; [assumption..|reflexivity]|].
  eapply prefers_Seq; [apply prefers_Chr|].
  rewrite <- (app_nil_r (int2 ++ lit "." ++ frac2)) at 1.
  apply prefers_Group. apply prefers_likelihood; try assumption. exact I.
Qed.

Lemma split_char_whole (sep : ascii) (s : str) :
  ~ In sep s -> split_char sep s = [s].
Proof.
  induction s as [|c s IH]; intro H; simpl; [reflexivity|].
  destruct (Ascii.eqb c sep) eqn:E.
  - apply Ascii.eqb_eq in E. subst c. exfalso. apply H. now left.
  - rewrite IH; [reflexivity|]. intro Hin. apply H. now right.
Qed.

Lemma split_char_app (sep : ascii) (piece rest : str) :
  ~ In sep piece ->
  split_char sep (piece ++ sep :: rest) = piece :: split_char sep rest.
Proof.
  induction piece as [|c piece IH]; intro H; simpl.
  - now rewrite Ascii.eqb_refl.
  - destruct (Ascii.eqb c sep) eqn:E.
    + apply Ascii.eqb_eq in E. subst c. exfalso. apply H. now left.
    + rewrite IH; [reflexivity|]. intro Hin. apply H. now right.
Qed.

Lemma class_excludes (cls : ascii -> bool) (c : ascii) (s : str) :
  cls c = false -> forallb cls s = true -> ~ In c s.
Proof.
  intros Hc Hs Hin. rewrite forallb_forall in Hs. apply Hs in Hin. congruence.
Qed.

Lemma likelihood_excludes (c : ascii) (int_part frac_part : str) :
  is_digit c = false -> c <> "." ->
  forallb is_digit int_part = true ->
  forallb is_digit frac_part = true ->
  ~ In c (int_part ++ lit "." ++ frac_part).
Proof.
  intros Hc Hdot Hi Hf Hin.
  apply in_app_or in Hin. destruct Hin as [Hin|[Hin|Hin]].
  - now apply (class_excludes _ _ _ Hc Hi).
  - congruence.
  - now apply (class_excludes _ _ _ Hc Hf).
Qed.

Lemma str_eqb_eq (s t : str) : str_eqb s t = true <-> s = t.
Proof.
  unfold str_eqb. destruct (list_eq_dec ascii_dec s t); split; congruence.
Qed.

Lemma str_eqb_refl (s : str) : str_eqb s s = true.
Proof. now apply str_eqb_eq. Qed.

Lemma str_eqb_neq (s t : str) : s <> t -> str_eqb s t = false.
Proof.
  intro H. destruct (str_eqb s t) eqn:E; [|reflexivity].
  apply str_eqb_eq in E. contradiction.
Qed.

(** Lines 133-135 on a specification of two entries. *)
Lemma parse_parentInfo_two (label1 label2 int1 frac1 int2 frac2 : str) :
  forallb is_word label1 = true ->
  forallb is_word label2 = true ->
  forallb is_digit int1 = true -> forallb is_digit frac1 = true ->
  forallb is_digit int2 = true -> forallb is_digit frac2 = true ->
  label1 <> label2 ->
  split_char ","
    (label1 ++ lit ":" ++ (int1 ++ lit "." ++ frac1) ++ lit ","
       ++ label2 ++ lit ":" ++ (int2 ++ lit "." ++ frac2))
  = [label1 ++ lit ":" ++ int1 ++ lit "." ++ frac1;
     label2 ++ lit ":" ++ int2 ++ lit "." ++ frac2]
  /\ parse_parentInfo
       (label1 ++ lit ":" ++ (int1 ++ lit "." ++ frac1) ++ lit ","
          ++ label2 ++ lit ":" ++ (int2 ++ lit "." ++ frac2))
     = Ok [(label1, int1 ++ lit "." ++ frac1);
           (label2, int2 ++ lit "." ++ frac2)].
Proof.
  intros Hl1 Hl2 Hi1 Hf1 Hi2 Hf2 Hne.
  assert (Hfields : forall label int_part frac_part,
             forallb is_word label = true ->
             forallb is_digit int_part = true ->
             forallb is_digit frac_part = true ->
             split_char ":" (label ++ lit ":" ++ int_part ++ lit "." ++ frac_part)
             = [label; int_part ++ lit "." ++ frac_part]).
  { intros label int_part frac_part Hl Hi Hf.
    change (lit ":" ++ int_part ++ lit "." ++ frac_part)
      with (":" :: int_part ++ lit "." ++ frac_part).
    rewrite split_char_app by now apply (class_excludes is_word).
    rewrite split_char_whole; [reflexivity|].
    apply likelihood_excludes; try assumption; [reflexivity | discriminate]. }
  assert (Hentries :
    split_char ","
      (label1 ++ lit ":" ++ (int1 ++ lit "." ++ frac1) ++ lit ","
         ++ label2 ++ lit ":" ++ (int2 ++ lit "." ++ frac2))
    = [label1 ++ lit ":" ++ int1 ++ lit "." ++ frac1;
       label2 ++ lit ":" ++ int2 ++ lit "." ++ frac2]).
  { replace (label1 ++ lit ":" ++ (int1 ++ lit "." ++ frac1) ++ lit ","
               ++ label2 ++ lit ":" ++ (int2 ++ lit "." ++ frac2))
      with ((label1 ++ lit ":" ++ int1 ++ lit "." ++ frac1)
              ++ "," :: label2 ++ lit ":" ++ int2 ++ lit "." ++ frac2)
      by (now rewrite <- !app_assoc).
    rewrite split_char_app, split_char_whole; [reflexivity | |].
    - intro H. apply in_app_or in H. destruct H as [H|[H|H]].
      + now apply (class_excludes is_word "," label2).
      + discriminate H.
      + revert H. apply likelihood_excludes; try assumption;
          [reflexivity | discriminate].
    - intro H. apply in_app_or in H. destruct H as [H|[H|H]].
      + now apply (class_excludes is_word "," label1).
      + discriminate H.
      + revert H. apply likelihood_excludes; try assumption;
          [reflexivity | discriminate]. }
  split; [exact Hentries|].
  unfold parse_parentInfo. rewrite Hentries. cbn [fold_left bind].
  unfold parse_entry. rewrite !Hfields by assumption.
  cbn [nth_error or_fail bind dict_set].
  now rewrite str_eqb_neq.
Qed.

Lemma comma_in_two (left_part right_part : str) :
  contains (left_part ++ lit "," ++ right_part) (lit ",") = true.
Proof. apply contains_occurs. now exists left_part, right_part. Qed.

(** C5, amended: on a specification [label1:p,label2:p] of two entries
    with labels of word characters and the same probability [p], written
    as digits, a point and digits, [main] ends with the equal-likelihood
    message before it opens any file: nothing is read and nothing is
    written. *)
Theorem equal_likelihoods_rejected :
  forall (fs : str -> option str)
         (treeName label1 label2 int_part frac_part prob parentInfo : str),
    forallb is_word label1 = true -> label1 <> [] ->
    forallb is_word label2 = true -> label2 <> [] ->
    label1 <> label2 ->
    forallb is_digit int_part = true ->
    forallb is_digit frac_part = true -> frac_part <> [] ->
    prob = int_part ++ lit "." ++ frac_part ->
    parentInfo = label1 ++ lit ":" ++ prob ++ lit "," ++ label2 ++ lit ":" ++ prob ->
    parse_parentInfo parentInfo = Ok [(label1, prob); (label2, prob)]
    /\ main fs treeName parentInfo = (Fail EqualLikelihoodError, []).
Proof.
  intros fs treeName label1 label2 int_part frac_part prob parentInfo
         Hl1 Hn1 Hl2 Hn2 Hne Hi Hf Hfn -> ->.
  split.
  { now apply parse_parentInfo_two. }
  unfold main, check_likelihoods.
  replace (contains _ (lit ",")) with true.
  2:{ symmetry.
      replace (label1 ++ lit ":" ++ (int_part ++ lit "." ++ frac_part) ++ lit ","
                 ++ label2 ++ lit ":" ++ int_part ++ lit "." ++ frac_part)
        with ((label1 ++ lit ":" ++ int_part ++ lit "." ++ frac_part) ++ lit ","
                 ++ label2 ++ lit ":" ++ int_part ++ lit "." ++ frac_part)
        by (now rewrite <- !app_assoc).
      apply comma_in_two. }
  rewrite re_search_parents by assumption.
  cbn [or_fail bind]. unfold group. cbn [Nat.sub nth].
  now rewrite str_eqb_refl.
Qed.

(** C10, amended: the check compares as texts the two probabilities
    that the pattern of line 101 captures.  On a specification
    [label1:p1,label2:p2] with labels of word characters and [p1], [p2]
    each written as digits, a point and digits, tokens that differ as
    texts, whatever numbers they denote, raise no equal-likelihood failure
    and [main] goes on to read the tree file. *)
Theorem distinct_tokens_accepted :
  forall (fs : str -> option str)
         (treeName label1 label2 int1 frac1 int2 frac2 prob1 prob2 parentInfo : str),
    forallb is_word label1 = true -> label1 <> [] ->
    forallb is_word label2 = true -> label2 <> [] ->
    label1 <> label2 ->
    forallb is_digit int1 = true ->
    forallb is_digit frac1 = true -> frac1 <> [] ->
    forallb is_digit int2 = true ->
    forallb is_digit frac2 = true -> frac2 <> [] ->
    prob1 = int1 ++ lit "." ++ frac1 ->
    prob2 = int2 ++ lit "." ++ frac2 ->
    prob1 <> prob2 ->
    parentInfo = label1 ++ lit ":" ++ prob1 ++ lit "," ++ label2 ++ lit ":" ++ prob2 ->
    parse_parentInfo parentInfo = Ok [(label1, prob1); (label2, prob2)]
    /\ check_likelihoods parentInfo = Ok tt
    /\ main fs treeName parentInfo = run_trees fs treeName parentInfo.
Proof.
  intros fs treeName label1 label2 int1 frac1 int2 frac2 prob1 prob2 parentInfo
         Hl1 Hn1 Hl2 Hn2 Hlabels Hi1 Hf1 Hfn1 Hi2 Hf2 Hfn2 -> -> Hne ->.
  split; [now apply parse_parentInfo_two|].
  assert (Hcheck : check_likelihoods
            (label1 ++ lit ":" ++ (int1 ++ lit "." ++ frac1) ++ lit ","
               ++ label2 ++ lit ":" ++ int2 ++ lit "." ++ frac2) = Ok tt).
  { unfold check_likelihoods.
    replace (contains _ (lit ",")) with true.
    2:{ symmetry.
        replace (label1 ++ lit ":" ++ (int1 ++ lit "." ++ frac1) ++ lit ","
                   ++ label2 ++ lit ":" ++ int2 ++ lit "." ++ frac2)
          with ((label1 ++ lit ":" ++ int1 ++ lit "." ++ frac1) ++ lit ","
                   ++ label2 ++ lit ":" ++ int2 ++ lit "." ++ frac2)
          by (now rewrite <- !app_assoc).
        apply comma_in_two. }
    rewrite re_search_parents by assumption.
    cbn [or_fail bind]. unfold group. cbn [Nat.sub nth].
    now rewrite str_eqb_neq. }
  split; [exact Hcheck|].
  unfold main. now rewrite Hcheck.
Qed.

(** ** The run *)

Lemma for_each_ok {A B : Type} (f : A -> result B) (xs : list A) :
  forall ys, for_each f xs = Ok ys -> Forall2 (fun x y => f x = Ok y) xs ys.
Proof.
  induction xs as [|x xs IH]; intros ys H; simpl in H.
  - inversion H. constructor.
  - destruct (f x) as [y|e] eqn:Ex; cbn [bind] in H; [|discriminate].
    destruct (for_each f xs) as [ys'|e]; cbn [bind] in H; [|discriminate].
    inversion H; subst. constructor; [exact Ex | now apply IH].
Qed.

Lemma for_each_fail {A B : Type} (f : A -> result B) (x : A) (e : failure) :
  forall (done todo : list A) (ys : list B),
    for_each f done = Ok ys ->
    f x = Fail e ->
    for_each f (done ++ x :: todo) = Fail e.
Proof.
  induction done as [|d done IH]; intros todo ys Hdone Hx; simpl in *.
  - now rewrite Hx.
  - destruct (f d) as [y|e'] eqn:Ed; cbn [bind] in *; [|discriminate].
    destruct (for_each f done) as [ys'|e']; cbn [bind] in *; [|discriminate].
    now rewrite (IH todo ys').
Qed.

Lemma lstrip_blanks (blanks rest : str) (c : ascii) :
  forallb is_space blanks = true ->
  is_space c = false ->
  lstrip (blanks ++ c :: rest) = c :: rest.
Proof.
  intros Hb Hc. induction blanks as [|b blanks IH]; simpl in *.
  - now rewrite Hc.
  - apply andb_prop in Hb. destruct Hb as [Hb Hbs]. rewrite Hb. now apply IH.
Qed.

Lemma lstrip_cases (s : str) :
  lstrip s = []
  \/ exists blanks c rest,
       s = blanks ++ c :: rest /\ forallb is_space blanks = true
       /\ is_space c = false /\ lstrip s = c :: rest.
Proof.
  induction s as [|a s IH]; [now left|]. simpl.
  destruct (is_space a) eqn:Ea.
  - destruct IH as [IH | (blanks & c & rest & -> & Hb & Hc & E)]; [now left|].
    right. exists (a :: blanks), c, rest. simpl. now rewrite Ea.
  - right. now exists [], a, s.
Qed.

Lemma lstrip_last (s : str) (c : ascii) :
  is_space c = false -> exists kept, lstrip (s ++ [c]) = kept ++ [c].
Proof.
  intro Hc. induction s as [|a s IH]; simpl.
  - rewrite Hc. now exists [].
  - destruct (is_space a); [exact IH | now exists (a :: s)].
Qed.

Lemma rstrip_first (c : ascii) (rest : str) :
  is_space c = false -> exists kept, rstrip (c :: rest) = c :: kept.
Proof.
  intro Hc. unfold rstrip. simpl rev.
  destruct (lstrip_last (rev rest) c Hc) as [kept ->].
  exists (rev kept). now rewrite rev_app_distr.
Qed.

(** Lines 112-115 keep the lines whose first character that is not white
    space exists and is not ["#"]. *)
Lemma is_tree_line_iff (line : str) :
  is_tree_line line = true
  <-> exists blanks c rest,
        line = blanks ++ c :: rest /\ forallb is_space blanks = true
        /\ is_space c = false /\ c <> "#".
Proof.
  unfold is_tree_line, strip. split.
  - destruct (lstrip_cases line) as [E | (blanks & c & rest & -> & Hb & Hc & E)];
      rewrite E; [discriminate|].
    destruct (rstrip_first c rest Hc) as [kept ->].
    intro H. exists blanks, c, rest. repeat split; try assumption.
    intros ->. discriminate H.
  - intros (blanks & c & rest & -> & Hb & Hc & Hne).
    rewrite lstrip_blanks by assumption.
    destruct (rstrip_first c rest Hc) as [kept ->].
    apply Ascii.eqb_neq in Hne. now rewrite Hne.
Qed.

Lemma split_char_length (sep : ascii) (s : str) :
  length (split_char sep s) = S (count s sep).
Proof.
  induction s as [|c s IH]; [reflexivity|]. cbn [split_char].
  destruct (Ascii.eqb c sep) eqn:E.
  - apply Ascii.eqb_eq in E. subst c. rewrite count_cons_eq.
    cbn [length]. now rewrite IH.
  - apply Ascii.eqb_neq in E. rewrite count_cons_neq by assumption.
    destruct (split_char sep s); cbn [length] in *; [discriminate | exact IH].
Qed.

Lemma contains_char (s : str) (c : ascii) :
  contains s [c] = true <-> 0 < count s c.
Proof.
  rewrite contains_occurs. unfold count. split.
  - intros (b & a & ->). apply (proj1 (count_occ_In ascii_dec _ c)).
    apply in_or_app. right. now left.
  - intro H. apply (proj2 (count_occ_In ascii_dec s c)) in H.
    apply in_split in H. destruct H as (b & a & ->). now exists b, a.
Qed.

Lemma output_name_entries (treeName parentInfo : str) :
  (2 <= length (split_char "," parentInfo) ->
   output_name treeName parentInfo = rmext treeName ++ lit ".wHybrid.tre")
  /\ (length (split_char "," parentInfo) = 1 ->
      output_name treeName parentInfo = rmext treeName ++ lit ".wSister.tre").
Proof.
  rewrite split_char_length. unfold output_name. change (lit ",") with [","].
  destruct (contains parentInfo [","]) eqn:E.
  - apply contains_char in E. split; [reflexivity | lia].
  - split; [|reflexivity]. intro H.
    assert (Hc : contains parentInfo [","] = true) by (apply contains_char; lia).
    congruence.
Qed.

Lemma addHybrDict_missing (treeStr : str) (aDict : dict)
      (entries1 entries2 : list (str * str)) (key val inTree : str) :
  iteritems aDict = entries1 ++ (key, val) :: entries2 ->
  fold_left addHybr_step entries1 (Ok treeStr) = Ok inTree ->
  (~ exists before after, inTree = before ++ key ++ after) ->
  addHybrDict treeStr aDict = Fail MissingTaxonError.
Proof.
  intros Hiter Hdone Hmissing. unfold addHybrDict.
  rewrite Hiter, fold_left_app, Hdone. cbn [fold_left].
  unfold addHybr_step at 2. cbn [bind].
  rewrite addHybr_entry_missing by assumption.
  apply addHybr_loop_fail.
Qed.

(** C6: the loop body fails with the missing-taxon message exactly when
    the label does not occur in the text it is given; when that happens
    for some tree of a run, the run ends there: the tree file has been
    read and no file is written. *)
Theorem missing_taxon_aborts :
  (forall inTree key val : str,
      (~ exists before after, inTree = before ++ key ++ after) ->
      addHybr_entry inTree (key, val) = Fail MissingTaxonError)
  /\ (forall inTree key val : str,
         (exists before after, inTree = before ++ key ++ after) ->
         addHybr_entry inTree (key, val) <> Fail MissingTaxonError)
  /\ (forall (fs : str -> option str) (treeName parentInfo content : str)
             (done todo : list str) (line treeStr : str) (outList : list str)
             (aDict : dict) (entries1 entries2 : list (str * str))
             (key val inTree : str),
         check_likelihoods parentInfo = Ok tt ->
         fs treeName = Some content ->
         filter is_tree_line (readlines content) = done ++ line :: todo ->
         for_each (process_tree parentInfo) done = Ok outList ->
         ladderize line = Some treeStr ->
         parse_parentInfo parentInfo = Ok aDict ->
         iteritems aDict = entries1 ++ (key, val) :: entries2 ->
         fold_left addHybr_step entries1
                   (Ok (rstrip (lstrip (drop_brackets None treeStr))))
         = Ok inTree ->
         (~ exists before after, inTree = before ++ key ++ after) ->
         main fs treeName parentInfo
         = (Fail MissingTaxonError, [FileRead treeName])).
Proof.
  split; [|split].
  - intros inTree key val. apply addHybr_entry_missing.
  - intros inTree key val. apply addHybr_entry_present.
  - intros fs treeName parentInfo content done todo line treeStr outList
           aDict entries1 entries2 key val inTree
           Hcheck Hfs Htrees Hdone Hlad Hparse Hiter Hloop Hmissing.
    assert (Hline : process_tree parentInfo line = Fail MissingTaxonError).
    { unfold process_tree. rewrite Hlad, Hparse. cbn [or_fail bind].
      now rewrite (addHybrDict_missing _ _ _ _ _ _ _ Hiter Hloop Hmissing). }
    unfold main, run_trees. rewrite Hcheck, Hfs, Htrees.
    now rewrite (for_each_fail _ _ _ _ _ _ Hdone Hline).
Qed.

Lemma for_each_all {A B : Type} (f : A -> result B) (xs : list A)
      (ys : list B) :
  Forall2 (fun x y => f x = Ok y) xs ys -> for_each f xs = Ok ys.
Proof.
  induction 1 as [|x y xs ys Hx Hrest IH]; [reflexivity|].
  cbn [for_each]. now rewrite Hx, IH.
Qed.

(** ["\n".join(outList)], piece by piece: every tree but the last is
    followed by the separator. *)
Lemma join_pieces (sep : str) (pieces : list str) :
  join sep pieces
  = concat (map (fun piece => piece ++ sep) (removelast pieces))
      ++ last pieces [].
Proof.
  induction pieces as [|piece rest IH]; [reflexivity|].
  destruct rest as [|piece' rest]; [reflexivity|].
  change (join sep (piece :: piece' :: rest))
    with (piece ++ sep ++ join sep (piece' :: rest)).
  change (removelast (piece :: piece' :: rest))
    with (piece :: removelast (piece' :: rest)).
  change (last (piece :: piece' :: rest) [])
    with (last (piece' :: rest) []).
  cbn [map concat]. rewrite IH. now rewrite <- !app_assoc.
Qed.

(** Cutting the joined text at the newlines gives the trees back. *)
Lemma split_join (pieces : list str) :
  Forall (fun piece => ~ In newline piece) pieces ->
  pieces <> [] ->
  split_char newline (join [newline] pieces) = pieces.
Proof.
  induction pieces as [|piece rest IH]; intros Hall Hne; [congruence|].
  inversion Hall as [|? ? Hpiece Hrest]; subst.
  destruct rest as [|piece' rest].
  - now apply split_char_whole.
  - change (join [newline] (piece :: piece' :: rest))
      with (piece ++ newline :: join [newline] (piece' :: rest)).
    rewrite split_char_app by assumption. f_equal.
    apply IH; [assumption | discriminate].
Qed.

Lemma output_name_by_entries (treeName parentInfo : str) :
  output_name treeName parentInfo
  = rmext treeName
      ++ (if Nat.leb 2 (length (split_char "," parentInfo))
          then lit ".wHybrid.tre" else lit ".wSister.tre").
Proof.
  destruct (output_name_entries treeName parentInfo) as [Hmore Hone].
  pose proof (split_char_length "," parentInfo) as Hlen.
  destruct (Nat.leb 2 (length (split_char "," parentInfo))) eqn:E.
  - apply Nat.leb_le in E. now apply Hmore.
  - apply Nat.leb_gt in E. apply Hone. lia.
Qed.

(** C9: when every kept line gives its tree, the run reads the tree
    file, keeps exactly its lines whose first character that is not white
    space exists and is not ["#"], turns each kept line into one output
    tree, in order, and writes one file: the trees, each but the last
    followed by a newline, so that cutting the written text at its
    newlines gives the trees back, as many as lines were kept.  The file
    is named after the input: [.wHybrid.tre] on a specification of two
    entries, [.wSister.tre] on a specification of one. *)
Theorem main_writes_trees :
  forall (fs : str -> option str) (treeName parentInfo content : str)
         (outList : list str),
    check_likelihoods parentInfo = Ok tt ->
    fs treeName = Some content ->
    Forall2 (fun line outTree => process_tree parentInfo line = Ok outTree)
            (filter is_tree_line (readlines content)) outList ->
    main fs treeName parentInfo
    = (Ok tt,
       [FileRead treeName;
        FileWritten
          (rmext treeName
             ++ (if Nat.leb 2 (length (split_char "," parentInfo))
                 then lit ".wHybrid.tre" else lit ".wSister.tre"))
          (concat (map (fun outTree => outTree ++ [newline])
                       (removelast outList))
             ++ last outList [])])
    /\ (Forall (fun outTree => ~ In newline outTree) outList ->
        outList <> [] ->
        split_char newline
          (concat (map (fun outTree => outTree ++ [newline])
                       (removelast outList))
             ++ last outList [])
        = outList)
    /\ length outList = length (filter is_tree_line (readlines content))
    /\ (forall line,
           In line (filter is_tree_line (readlines content))
           <-> In line (readlines content)
               /\ exists blanks c rest,
                   line = blanks ++ c :: rest
                   /\ forallb is_space blanks = true
                   /\ is_space c = false /\ c <> "#").
Proof.
  intros fs treeName parentInfo content outList Hcheck Hfs Hall.
  split; [|split; [|split]].
  - unfold main, run_trees.
    rewrite Hcheck, Hfs, (for_each_all _ _ _ Hall).
    now rewrite output_name_by_entries, join_pieces.
  - intros Hlines Hne. rewrite <- join_pieces. now apply split_join.
  - symmetry. exact (Forall2_length Hall).
  - intro line. rewrite filter_In, is_tree_line_iff. reflexivity.
Qed.

(** * Further properties of the script *)

(** ** Node labeler *)

Lemma countdown_seq (k : nat) :
  forall n, countdown n k = map (fun i => (n - Z.of_nat i)%Z) (seq 0 k).
Proof.
  induction k as [|k IH]; intro n; [reflexivity|].
  cbn [countdown seq map]. rewrite Z.sub_0_r. f_equal.
  rewrite IH, <- seq_shift, map_map. apply map_ext. intro i. lia.
Qed.

Lemma countdown_NoDup (k : nat) : forall n, NoDup (countdown n k).
Proof.
  induction k as [|k IH]; intro n; simpl; constructor; [|apply IH].
  intro H. apply countdown_bound in H. lia.
Qed.

(** X1: the closing parentheses are numbered consecutively downwards: the
    one at position [i] (from 0) gets [2 * N - i].  The labels are
    pairwise different and lie between [N + 1] and [2 * N]: the numbers
    [1 .. N] are never used. *)
Theorem node_labels_consecutive :
  forall inTree : str,
    node_labels inTree
    = map (fun i => (2 * Z.of_nat (count inTree ")") - Z.of_nat i)%Z)
          (seq 0 (count inTree ")"))
    /\ NoDup (node_labels inTree)
    /\ Forall (fun l => (Z.of_nat (count inTree ")") < l
                         <= 2 * Z.of_nat (count inTree ")"))%Z)
              (node_labels inTree).
Proof.
  intro inTree. rewrite node_labels_countdown. split; [|split].
  - rewrite countdown_seq. apply map_ext. intro i. lia.
  - apply countdown_NoDup.
  - apply Forall_forall. intros l H. apply countdown_bound in H. lia.
Qed.

Lemma app_eq_skip (c : ascii) (l : str) :
  forall pre post m,
    ~ In c l ->
    pre ++ c :: post = l ++ m ->
    exists p, pre = l ++ p /\ m = p ++ c :: post.
Proof.
  induction l as [|a l IH]; intros pre post m Hc H.
  - now exists pre.
  - destruct pre as [|b pre]; simpl in H; inversion H; subst.
    + exfalso. apply Hc. now left.
    + destruct (IH pre post m) as (p & -> & ->); [|assumption|].
      * intro Hin. apply Hc. now right.
      * now exists p.
Qed.

Lemma scan_paren_followed (text : str) :
  forall counter pre post,
    labelNodes_scan counter text = pre ++ ")" :: post ->
    exists post', post = "s" :: post'.
Proof.
  induction text as [|c rest IH]; intros counter pre post H;
    cbn [labelNodes_scan] in H.
  - destruct pre; discriminate H.
  - destruct (Ascii.eqb c ")") eqn:Ec.
    + change (lit "s" ++ str_of_int counter ++ labelNodes_scan (counter - 1) rest)
        with ("s" :: str_of_int counter ++ labelNodes_scan (counter - 1) rest)
        in H.
      destruct pre as [|b pre]; cbn [app] in H.
      * injection H as _ Hpost. eexists. symmetry. exact Hpost.
      * injection H as _ Htail.
        destruct pre as [|b' pre]; cbn [app] in Htail; [discriminate Htail|].
        injection Htail as _ Htail. symmetry in Htail.
        destruct (app_eq_skip ")" (str_of_int counter) pre post _
                    (str_of_int_no_paren counter) Htail) as (p & _ & Hp).
        exact (IH _ _ _ Hp).
    + destruct pre as [|b pre]; cbn [app] in H.
      * injection H as Hc _. subst c. discriminate Ec.
      * injection H as _ Htail. exact (IH _ _ _ Htail).
Qed.

(** X2: the labeler leaves no closing parenthesis bare: wherever the
    output has a [")"], an ["s"] follows it at once. *)
Theorem addNodeNumb_no_bare_paren :
  forall inTree pre post : str,
    addNodeNumb inTree = pre ++ ")" :: post ->
    exists post', post = "s" :: post'.
Proof.
  intros inTree pre post H. rewrite addNodeNumb_scan in H.
  exact (scan_paren_followed _ _ _ _ H).
Qed.

Lemma addNodeNumb_no_bare_paren_witness :
  exists post', lit "s4,C)s3;" = "s" :: post'.
Proof.
  apply (addNodeNumb_no_bare_paren (lit "((A,B),C);") (lit "((A,B")
           (lit "s4,C)s3;")).
  reflexivity.
Defined.

Lemma scan_app (s : str) :
  forall counter t,
    labelNodes_scan counter (s ++ t)
    = labelNodes_scan counter s
        ++ labelNodes_scan (counter - Z.of_nat (count s ")")) t.
Proof.
  induction s as [|c s IH]; intros counter t.
  - simpl. now rewrite Z.sub_0_r.
  - cbn [app labelNodes_scan].
    destruct (ascii_dec c ")") as [->|Hc].
    + rewrite Ascii.eqb_refl, count_cons_eq, IH.
      replace (counter - Z.of_nat (S (count s ")")))%Z
        with (counter - 1 - Z.of_nat (count s ")"))%Z by lia.
      cbn [app]. now rewrite <- !app_assoc.
    + rewrite (proj2 (Ascii.eqb_neq _ _) Hc), count_cons_neq, IH by assumption.
      reflexivity.
Qed.

(** X3: the labeler touches nothing outside the parentheses it labels:
    text after the last closing parenthesis, and text before the first,
    comes out as it went in. *)
Theorem addNodeNumb_outside_untouched :
  forall s t : str,
    (count t ")" = 0 -> addNodeNumb (s ++ t) = addNodeNumb s ++ t)
    /\ (count s ")" = 0 -> addNodeNumb (s ++ t) = s ++ addNodeNumb t).
Proof.
  intros s t. rewrite !addNodeNumb_scan, scan_app, count_app. split; intro H.
  - rewrite H, Nat.add_0_r, (scan_no_paren t) by assumption. reflexivity.
  - rewrite H, (scan_no_paren s) by assumption. simpl. now rewrite Z.sub_0_r.
Qed.

Lemma addNodeNumb_outside_untouched_witness :
  addNodeNumb (lit "((A,B),C)" ++ lit ":0.5;")
  = addNodeNumb (lit "((A,B),C)") ++ lit ":0.5;"
  /\ addNodeNumb (lit "  " ++ lit "(A,B);") = lit "  " ++ addNodeNumb (lit "(A,B);").
Proof.
  split.
  - apply (proj1 (addNodeNumb_outside_untouched (lit "((A,B),C)") (lit ":0.5;"))).
    reflexivity.
  - apply (proj2 (addNodeNumb_outside_untouched (lit "  ") (lit "(A,B);"))).
    reflexivity.
Defined.

(** ** The equal-likelihood check on other specifications *)

Lemma greedy_suffix (cls : ascii -> bool) (s : str) :
  forall rest, In rest (greedy cls s) -> exists consumed, s = consumed ++ rest.
Proof.
  induction s as [|c s IH]; intros rest H; simpl in H.
  - destruct H as [<-|[]]. now exists [].
  - destruct (cls c).
    + apply in_app_or in H. destruct H as [H|[<-|[]]].
      * destruct (IH rest H) as [consumed ->]. now exists (c :: consumed).
      * now exists [].
    + destruct H as [<-|[]]. now exists [].
Qed.

(** A match consumes a prefix of the text. *)
Lemma rmatch_suffix (r : regex) :
  forall s groups rest,
    In (groups, rest) (rmatch r s) -> exists consumed, s = consumed ++ rest.
Proof.
  induction r as [c|cls|cls|r1 IH1 r2 IH2|r IH]; intros s groups rest H;
    simpl in H.
  - destruct s as [|d s]; [contradiction|].
    destruct (Ascii.eqb c d); [|contradiction].
    destruct H as [H|[]]. inversion H; subst. now exists [d].
  - apply in_map_iff in H. destruct H as (x & Hx & Hin). inversion Hx; subst.
    now apply greedy_suffix in Hin.
  - destruct s as [|d s]; [contradiction|].
    destruct (cls d); [|contradiction].
    apply in_map_iff in H. destruct H as (x & Hx & Hin). inversion Hx; subst.
    apply greedy_suffix in Hin. destruct Hin as [consumed ->].
    now exists (d :: consumed).
  - apply in_flat_map in H. destruct H as ([g1 s1] & H1 & H).
    apply in_map_iff in H. destruct H as ([g2 s2] & Hx & H2).
    inversion Hx; subst.
    destruct (IH1 _ _ _ H1) as [c1 ->]. destruct (IH2 _ _ _ H2) as [c2 ->].
    exists (c1 ++ c2). now rewrite app_assoc.
  - apply in_map_iff in H. destruct H as ([g s'] & Hx & Hin).
    inversion Hx; subst. exact (IH _ _ _ Hin).
Qed.

Lemma rmatch_Seq_none (r1 r2 : regex) (s : str) :
  (forall groups rest, In (groups, rest) (rmatch r1 s) -> rmatch r2 rest = []) ->
  rmatch (Seq r1 r2) s = [].
Proof.
  intro H. cbn [rmatch].
  induction (rmatch r1 s) as [|[g1 s1] results IH]; [reflexivity|].
  cbn [flat_map]. rewrite (H g1 s1) by now left. cbn [map app].
  apply IH. intros groups rest Hin. apply (H groups rest). now right.
Qed.

Lemma rmatch_Group_none (r : regex) (s : str) :
  rmatch r s = [] -> rmatch (Group r) s = [].
Proof. intro H. cbn [rmatch]. now rewrite H. Qed.

Lemma rmatch_Chr_absent (c : ascii) (s : str) :
  ~ In c s -> rmatch (Chr c) s = [].
Proof.
  intro H. destruct s as [|d s]; [reflexivity|]. cbn [rmatch].
  destruct (Ascii.eqb c d) eqn:E; [|reflexivity].
  apply Ascii.eqb_eq in E. subst d. exfalso. apply H. now left.
Qed.

Lemma likelihood_needs_point (s : str) :
  ~ In "." s -> rmatch likelihood_re s = [].
Proof.
  intro H. unfold likelihood_re. apply rmatch_Seq_none. intros g1 s1 H1.
  apply rmatch_suffix in H1. destruct H1 as [c1 ->].
  apply rmatch_Seq_none. intros g2 s2 H2. exfalso.
  rewrite rmatch_Chr_absent in H2; [exact H2|].
  intro Hin. apply H. apply in_or_app. now right.
Qed.

Lemma parents_needs_point (s : str) :
  ~ In "." s -> rmatch parents_re s = [].
Proof.
  intro H. unfold parents_re. apply rmatch_Seq_none. intros g1 s1 H1.
  apply rmatch_suffix in H1. destruct H1 as [c1 ->].
  apply rmatch_Seq_none. intros g2 s2 H2.
  apply rmatch_suffix in H2. destruct H2 as [c2 ->].
  apply rmatch_Seq_none. intros g3 s3 H3. exfalso.
  cbn [rmatch] in H3. rewrite likelihood_needs_point in H3; [exact H3|].
  intro Hin. apply H. apply in_or_app. right. apply in_or_app. now right.
Qed.

Lemma re_search_needs_point (s : str) :
  ~ In "." s -> re_search parents_re s = None.
Proof.
  induction s as [|c s IH]; intro H; cbn [re_search];
    rewrite parents_needs_point by assumption; [reflexivity|].
  apply IH. intro Hin. apply H. now right.
Qed.

(** X4: a specification with a comma and no point anywhere (likelihoods
    written as [1] or [50]) cannot match the pattern of line 101:
    [search] is [None], [search.group] raises, and the run ends before any
    file is opened. *)
Theorem no_point_no_match :
  forall (fs : str -> option str) (treeName parentInfo : str),
    In "," parentInfo ->
    ~ In "." parentInfo ->
    check_likelihoods parentInfo = Fail AttributeError
    /\ main fs treeName parentInfo = (Fail AttributeError, []).
Proof.
  intros fs treeName parentInfo Hcomma Hpoint.
  assert (H : check_likelihoods parentInfo = Fail AttributeError).
  { unfold check_likelihoods. change (lit ",") with [","].
    rewrite (proj2 (contains_char parentInfo ","))
      by (apply (proj1 (count_occ_In ascii_dec _ _)); exact Hcomma).
    now rewrite re_search_needs_point. }
  split; [exact H|]. unfold main. now rewrite H.
Qed.

(** The groups captured when text follows the second likelihood. *)
Lemma re_search_parents_then
      (label1 label2 int1 frac1 int2 frac2 tail : str) :
  forallb is_word label1 = true -> label1 <> [] ->
  forallb is_word label2 = true -> label2 <> [] ->
  forallb is_digit int1 = true ->
  forallb is_digit frac1 = true -> frac1 <> [] ->
  forallb is_digit int2 = true ->
  forallb is_digit frac2 = true -> frac2 <> [] ->
  stops is_digit tail ->
  re_search parents_re
    (label1 ++ lit ":" ++ (int1 ++ lit "." ++ frac1) ++ lit ","
       ++ label2 ++ lit ":" ++ (int2 ++ lit "." ++ frac2) ++ tail)
  = Some [int1 ++ lit "." ++ frac1; int2 ++ lit "." ++ frac2].
Proof.
  intros Hl1 Hn1 Hl2 Hn2 Hi1 Hf1 Hfn1 Hi2 Hf2 Hfn2 Htail.
  apply re_search_prefers with (rest := tail). unfold parents_re.
  change [int1 ++ lit "." ++ frac1; int2 ++ lit "." ++ frac2]
    with ([] ++ [] ++ [int1 ++ lit "." ++ frac1] ++ [] ++ [] ++ []
             ++ [int2 ++ lit "." ++ frac2]).
  eapply prefers_Seq; [apply prefers_Plus; [assumption..|reflexivity]|].
  eapply prefers_Seq; [apply prefers_Chr|].
  eapply prefers_Seq.
  { apply prefers_Group. apply prefers_likelihood; try assumption. reflexivity. }
  eapply prefers_Seq; [apply prefers_Chr|].
  eapply prefers_Seq; [apply prefers_Plus; [assumption..|reflexivity]|].
  eapply prefers_Seq; [apply prefers_Chr|].
  apply prefers_Group. now apply prefers_likelihood.
Qed.

(** X5: the pattern of line 101 is not anchored at the end.  Whatever
    follows the second likelihood from its first character that is not a
    digit on (an exponent, a unit, further entries) is not compared: the
    check rejects the specification exactly when the two decimals before
    it are the same text. *)
Theorem check_ignores_what_follows :
  forall (label1 label2 int1 frac1 int2 frac2 tail parentInfo : str),
    forallb is_word label1 = true -> label1 <> [] ->
    forallb is_word label2 = true -> label2 <> [] ->
    forallb is_digit int1 = true ->
    forallb is_digit frac1 = true -> frac1 <> [] ->
    forallb is_digit int2 = true ->
    forallb is_digit frac2 = true -> frac2 <> [] ->
    stops is_digit tail ->
    parentInfo = label1 ++ lit ":" ++ (int1 ++ lit "." ++ frac1) ++ lit ","
                   ++ label2 ++ lit ":" ++ (int2 ++ lit "." ++ frac2) ++ tail ->
    (int1 ++ lit "." ++ frac1 = int2 ++ lit "." ++ frac2 ->
     check_likelihoods parentInfo = Fail EqualLikelihoodError)
    /\ (int1 ++ lit "." ++ frac1 <> int2 ++ lit "." ++ frac2 ->
        check_likelihoods parentInfo = Ok tt).
Proof.
  intros label1 label2 int1 frac1 int2 frac2 tail parentInfo
         Hl1 Hn1 Hl2 Hn2 Hi1 Hf1 Hfn1 Hi2 Hf2 Hfn2 Htail ->.
  unfold check_likelihoods.
  replace (contains _ (lit ",")) with true.
  2:{ symmetry.
      replace (label1 ++ lit ":" ++ (int1 ++ lit "." ++ frac1) ++ lit ","
                 ++ label2 ++ lit ":" ++ (int2 ++ lit "." ++ frac2) ++ tail)
        with ((label1 ++ lit ":" ++ int1 ++ lit "." ++ frac1) ++ lit ","
                 ++ label2 ++ lit ":" ++ (int2 ++ lit "." ++ frac2) ++ tail)
        by (now rewrite <- !app_assoc).
      apply comma_in_two. }
  rewrite re_search_parents_then by assumption.
  cbn [or_fail bind]. unfold group. cbn [Nat.sub nth].
  split; intro H.
  - now rewrite (proj2 (str_eqb_eq _ _) H).
  - now rewrite str_eqb_neq.
Qed.

(** ** The hybrid dictionary (lines 133-135) *)

Lemma split_char_fields (sep : ascii) (s : str) :
  (exists first, nth_error (split_char sep s) 0 = Some first)
  /\ (In sep s -> exists second, nth_error (split_char sep s) 1 = Some second)
  /\ (~ In sep s -> nth_error (split_char sep s) 1 = None).
Proof.
  pose proof (split_char_length sep s) as Hlen.
  destruct (split_char sep s) as [|first [|second others]] eqn:E;
    cbn [length] in Hlen; [discriminate| |].
  - assert (Hc : count s sep = 0) by lia.
    split; [now eexists|]. split; [|reflexivity].
    intro H. apply (proj1 (count_occ_In ascii_dec _ _)) in H.
    unfold count in Hc. lia.
  - split; [now eexists|]. split; [now eexists|].
    intro H. apply count_not_In in H. lia.
Qed.

Lemma parse_entry_colon (aDict : dict) (i : str) :
  In ":" i -> exists key val, parse_entry aDict i = Ok (dict_set aDict key val).
Proof.
  intro H. unfold parse_entry.
  destruct (split_char_fields ":" i) as ([key ->] & Hsecond & _).
  destruct (Hsecond H) as [val ->]. now exists key, val.
Qed.

Lemma parse_entry_no_colon (aDict : dict) (i : str) :
  ~ In ":" i -> parse_entry aDict i = Fail IndexError.
Proof.
  intro H. unfold parse_entry.
  destruct (split_char_fields ":" i) as ([key ->] & _ & Hnone).
  now rewrite (Hnone H).
Qed.

Lemma parse_loop_fail (entries : list str) (e : failure) :
  fold_left (fun acc i => aDict <- acc ;; parse_entry aDict i) entries (Fail e)
  = Fail e.
Proof. induction entries as [|i entries IH]; [reflexivity | exact IH]. Qed.



Lemma dict_set_keys (d : dict) (k v : str) :
  map fst (dict_set d k v)
  = if in_dec (list_eq_dec ascii_dec) k (map fst d)
    then map fst d else map fst d ++ [k].
Proof.
  induction d as [|[k' v'] d IH]; [reflexivity|]. cbn [dict_set].
  destruct (str_eqb k' k) eqn:E.
  - apply str_eqb_eq in E. subst k'. cbn [map fst].
    destruct (in_dec (list_eq_dec ascii_dec) k (k :: map fst d)) as [_|H]; [reflexivity|].
    exfalso. apply H. now left.
  - cbn [map fst]. rewrite IH.
    assert (Hne : k' <> k) by (intro H; apply str_eqb_eq in H; congruence).
    destruct (in_dec (list_eq_dec ascii_dec) k (map fst d)) as [Hin|Hin];
      destruct (in_dec (list_eq_dec ascii_dec) k (k' :: map fst d)) as [Hin'|Hin'];
      try reflexivity.
    + exfalso. apply Hin'. now right.
    + destruct Hin' as [H|H]; [congruence | contradiction].
Qed.

Lemma dict_set_NoDup (d : dict) (k v : str) :
  NoDup (map fst d) -> NoDup (map fst (dict_set d k v)).
Proof.
  intro H. rewrite dict_set_keys.
  destruct (in_dec (list_eq_dec ascii_dec) k (map fst d)) as [Hin|Hin]; [exact H|].
  apply NoDup_app; [exact H | repeat constructor; intros [] | ].
  intros x Hx [<-|[]]. contradiction.
Qed.

Lemma dict_set_length (d : dict) (k v : str) :
  1 <= length (dict_set d k v) <= S (length d).
Proof.
  induction d as [|[k' v'] d IH]; cbn [dict_set length]; [lia|].
  destruct (str_eqb k' k); cbn [length]; lia.
Qed.

(** What the loop of lines 134-135 keeps, from any dictionary on. *)
Lemma parse_loop_keys (entries : list str) :
  forall aDict aDict',
    fold_left (fun acc i => aDict <- acc ;; parse_entry aDict i)
              entries (Ok aDict) = Ok aDict' ->
    NoDup (map fst aDict) ->
    NoDup (map fst aDict')
    /\ length aDict' <= length aDict + length entries
    /\ (entries <> [] -> aDict' <> []).
Proof.
  induction entries as [|i entries IH]; intros aDict aDict' H Hnd.
  - inversion H; subst. split; [exact Hnd|]. split; [simpl; lia | congruence].
  - cbn [fold_left bind] in H.
    destruct (in_dec ascii_dec ":" i) as [Hi|Hi].
    + destruct (parse_entry_colon aDict i Hi) as (key & val & E).
      rewrite E in H.
      destruct (IH _ _ H (dict_set_NoDup aDict key val Hnd))
        as (Hnd' & Hlen & Hne).
      pose proof (dict_set_length aDict key val) as Hset.
      split; [exact Hnd'|]. split; [cbn [length]; lia|]. intros _.
      destruct entries as [|i' entries].
      * inversion H; subst. destruct (dict_set aDict key val); [simpl in Hset; lia|].
        discriminate.
      * apply Hne. discriminate.
    + rewrite (parse_entry_no_colon aDict i Hi), parse_loop_fail in H.
      discriminate H.
Qed.

(** X7: the dictionary the loop body iterates never holds a label twice,
    holds at least one entry, and holds at most as many entries as the
    specification has comma-separated parts. *)
Theorem parse_parentInfo_keys :
  forall (parentInfo : str) (aDict : dict),
    parse_parentInfo parentInfo = Ok aDict ->
    NoDup (map fst aDict)
    /\ 1 <= length aDict <= length (split_char "," parentInfo).
Proof.
  intros parentInfo aDict H. unfold parse_parentInfo in H.
  destruct (parse_loop_keys _ _ _ H (NoDup_nil _)) as (Hnd & Hlen & Hne).
  split; [exact Hnd|]. split; [|exact Hlen].
  assert (Hparts : split_char "," parentInfo <> []).
  { pose proof (split_char_length "," parentInfo) as Hl.
    destruct (split_char "," parentInfo); [discriminate Hl | discriminate]. }
  specialize (Hne Hparts). destruct aDict; [congruence | simpl; lia].
Qed.

Lemma parse_parentInfo_pair (label1 label2 int1 frac1 int2 frac2 : str) :
  forallb is_word label1 = true ->
  forallb is_word label2 = true ->
  forallb is_digit int1 = true -> forallb is_digit frac1 = true ->
  forallb is_digit int2 = true -> forallb is_digit frac2 = true ->
  parse_parentInfo
    (label1 ++ lit ":" ++ (int1 ++ lit "." ++ frac1) ++ lit ","
       ++ label2 ++ lit ":" ++ (int2 ++ lit "." ++ frac2))
  = Ok (dict_set [(label1, int1 ++ lit "." ++ frac1)]
                 label2 (int2 ++ lit "." ++ frac2)).
Proof.
  intros Hl1 Hl2 Hi1 Hf1 Hi2 Hf2.
  assert (Hfields : forall label int_part frac_part,
             forallb is_word label = true ->
             forallb is_digit int_part = true ->
             forallb is_digit frac_part = true ->
             split_char ":" (label ++ lit ":" ++ int_part ++ lit "." ++ frac_part)
             = [label; int_part ++ lit "." ++ frac_part]).
  { intros label int_part frac_part Hl Hi Hf.
    change (lit ":" ++ int_part ++ lit "." ++ frac_part)
      with (":" :: int_part ++ lit "." ++ frac_part).
    rewrite split_char_app by now apply (class_excludes is_word).
    rewrite split_char_whole; [reflexivity|].
    apply likelihood_excludes; try assumption; [reflexivity | discriminate]. }
  assert (Hno : forall label int_part frac_part,
             forallb is_word label = true ->
             forallb is_digit int_part = true ->
             forallb is_digit frac_part = true ->
             ~ In "," (label ++ lit ":" ++ int_part ++ lit "." ++ frac_part)).
  { intros label int_part frac_part Hl Hi Hf H.
    apply in_app_or in H. destruct H as [H|[H|H]].
    - now apply (class_excludes is_word "," label).
    - discriminate H.
    - revert H. apply likelihood_excludes; try assumption;
        [reflexivity | discriminate]. }
  unfold parse_parentInfo.
  replace (label1 ++ lit ":" ++ (int1 ++ lit "." ++ frac1) ++ lit ","
             ++ label2 ++ lit ":" ++ (int2 ++ lit "." ++ frac2))
    with ((label1 ++ lit ":" ++ int1 ++ lit "." ++ frac1)
            ++ "," :: label2 ++ lit ":" ++ int2 ++ lit "." ++ frac2)
    by (now rewrite <- !app_assoc).
  rewrite split_char_app, split_char_whole by now apply Hno.
  cbn [fold_left bind]. unfold parse_entry.
  rewrite !Hfields by assumption. reflexivity.
Qed.

(** X8: a specification that names the same label twice gives a
    dictionary of one entry, with the likelihood written last: the loop
    body runs once, and the output still takes the name of a two-parent
    run. *)
Theorem same_label_twice :
  forall (treeName label int1 frac1 int2 frac2 parentInfo : str),
    forallb is_word label = true ->
    forallb is_digit int1 = true -> forallb is_digit frac1 = true ->
    forallb is_digit int2 = true -> forallb is_digit frac2 = true ->
    parentInfo = label ++ lit ":" ++ (int1 ++ lit "." ++ frac1) ++ lit ","
                   ++ label ++ lit ":" ++ (int2 ++ lit "." ++ frac2) ->
    parse_parentInfo parentInfo = Ok [(label, int2 ++ lit "." ++ frac2)]
    /\ (forall inTree,
           addHybrDict inTree [(label, int2 ++ lit "." ++ frac2)]
           = addHybr_entry inTree (label, int2 ++ lit "." ++ frac2))
    /\ output_name treeName parentInfo = rmext treeName ++ lit ".wHybrid.tre".
Proof.
  intros treeName label int1 frac1 int2 frac2 parentInfo Hl Hi1 Hf1 Hi2 Hf2 ->.
  split; [|split].
  - rewrite parse_parentInfo_pair by assumption.
    cbn [dict_set]. now rewrite str_eqb_refl.
  - intro inTree. unfold addHybrDict.
    pose proof (iteritems_entries [(label, int2 ++ lit "." ++ frac2)]) as Hperm.
    apply Permutation_sym, Permutation_length_1_inv in Hperm.
    rewrite Hperm. reflexivity.
  - unfold output_name.
    replace (contains _ (lit ",")) with true; [reflexivity|].
    symmetry.
    replace (label ++ lit ":" ++ (int1 ++ lit "." ++ frac1) ++ lit ","
               ++ label ++ lit ":" ++ int2 ++ lit "." ++ frac2)
      with ((label ++ lit ":" ++ int1 ++ lit "." ++ frac1) ++ lit ","
               ++ label ++ lit ":" ++ int2 ++ lit "." ++ frac2)
      by (now rewrite <- !app_assoc).
    apply comma_in_two.
Qed.

(** ** Bracketed annotations (line 129) *)

Lemma drop_brackets_closed (inside : str) :
  forall held rest,
    ~ In "]" inside -> ~ In newline inside ->
    drop_brackets (Some held) (inside ++ "]" :: rest) = drop_brackets None rest.
Proof.
  induction inside as [|c inside IH]; intros held rest Hclose Hnl.
  - reflexivity.
  - cbn [app drop_brackets].
    destruct (Ascii.eqb c "]") eqn:E1.
    { apply Ascii.eqb_eq in E1. subst c. exfalso. apply Hclose. now left. }
    destruct (Ascii.eqb c newline) eqn:E2.
    { apply Ascii.eqb_eq in E2. subst c. exfalso. apply Hnl. now left. }
    apply IH; intro H; [apply Hclose | apply Hnl]; now right.
Qed.

Lemma drop_brackets_open (inside : str) :
  forall held rest,
    ~ In "]" inside -> ~ In newline inside ->
    drop_brackets (Some held) (inside ++ newline :: rest)
    = held ++ inside ++ newline :: drop_brackets None rest.
Proof.
  induction inside as [|c inside IH]; intros held rest Hclose Hnl.
  - reflexivity.
  - cbn [app drop_brackets].
    destruct (Ascii.eqb c "]") eqn:E1.
    { apply Ascii.eqb_eq in E1. subst c. exfalso. apply Hclose. now left. }
    destruct (Ascii.eqb c newline) eqn:E2.
    { apply Ascii.eqb_eq in E2. subst c. exfalso. apply Hnl. now left. }
    rewrite IH
      by (intro H; first [apply Hclose; now right | apply Hnl; now right]).
    now rewrite <- app_assoc.
Qed.

(** X10: the substitution of line 129 leaves a text without an opening
    bracket as it is, removes a bracketed annotation that closes on its
    line, and keeps an opening bracket whose line ends before it closes. *)
Theorem drop_brackets_annotations :
  forall inside rest : str,
    (~ In "[" rest -> drop_brackets None rest = rest)
    /\ (~ In "]" inside -> ~ In newline inside ->
        drop_brackets None ("[" :: inside ++ "]" :: rest)
        = drop_brackets None rest)
    /\ (~ In "]" inside -> ~ In newline inside ->
        drop_brackets None ("[" :: inside ++ newline :: rest)
        = "[" :: inside ++ newline :: drop_brackets None rest).
Proof.
  intros inside rest. split; [|split].
  - induction rest as [|c rest IH]; intro H; [reflexivity|].
    cbn [drop_brackets].
    destruct (Ascii.eqb c "[") eqn:E.
    + apply Ascii.eqb_eq in E. subst c. exfalso. apply H. now left.
    + rewrite IH; [reflexivity|]. intro Hin. apply H. now right.
  - intros Hclose Hnl. cbn [drop_brackets Ascii.eqb].
    change (Ascii.eqb "[" "[") with true. cbv iota.
    now apply drop_brackets_closed.
  - intros Hclose Hnl. cbn [drop_brackets].
    change (Ascii.eqb "[" "[") with true. cbv iota.
    now rewrite drop_brackets_open.
Qed.

(** ** More on the loop body (lines 59-88) *)

(** X12: a branch length that is no number ends the run.  Where the token
    after [key + ":"] ends at a comma and [float] refuses it, the second
    [float] of line 74 raises [ValueError] outside any handler. *)
Theorem malformed_brlen_raises :
  forall (inTree key val before token rest : str),
    split_first (key ++ lit ":") inTree = Some (before, token ++ "," :: rest) ->
    ~ In ")" token ->
    ~ In "," token ->
    In ")" rest ->
    float token = None ->
    adjust_brlen inTree key = Fail ValueError
    /\ addHybr_entry inTree (key, val) = Fail ValueError.
Proof.
  intros inTree key val before token rest Hsplit Hparen Hcomma Hrest Hfloat.
  assert (H : adjust_brlen inTree key = Fail ValueError).
  { unfold adjust_brlen.
    rewrite (key_present _ _ _ _ Hsplit). cbn [negb].
    change (lit ")") with [")"]. change (lit ",") with [","].
    destruct (in_split_first _ _ Hrest) as (r1 & r2 & Er & Hr1).
    assert (Hsplit' : split_first (key ++ lit ":") inTree
                      = Some (before, (token ++ "," :: r1) ++ ")" :: r2)).
    { rewrite Hsplit, Er, <- app_assoc. reflexivity. }
    assert (Hparen' : ~ In ")" (token ++ "," :: r1)).
    { intro H. apply in_app_or in H. destruct H as [H|[H|H]];
        [contradiction | discriminate | contradiction]. }
    rewrite (exstr_token _ _ _ _ _ _ Hsplit' Hparen'). cbn [or_fail bind].
    rewrite float_rejects_comma by (apply in_or_app; right; now left).
    rewrite (exstr_token _ _ _ _ _ _ Hsplit Hcomma). cbn [or_fail bind].
    now rewrite Hfloat. }
  split; [exact H|]. unfold addHybr_entry. now rewrite H.
Qed.

(** X13: one turn of the loop adds one clade.  Where the label first
    occurs as [key + ":"] with a branch length, and neither the
    likelihood nor the rendered half length holds a parenthesis, the text
    gains exactly one opening and one closing parenthesis: a balanced
    tree stays balanced and has one more node to label. *)
Theorem splice_adds_one_clade :
  forall (inTree key val before token rest : str) (d : ascii) (brlen : float_t),
    split_first key inTree = Some (before, lit ":" ++ token ++ d :: rest) ->
    split_first (key ++ lit ":") inTree = Some (before, token ++ d :: rest) ->
    d = ")" \/ d = "," ->
    ~ In ")" token -> ~ In "," token -> ~ In "(" token ->
    float token = Some brlen ->
    (d = "," -> In ")" rest) ->
    ~ In "(" val -> ~ In ")" val ->
    ~ In "(" (str_of_float (times_half brlen)) ->
    ~ In ")" (str_of_float (times_half brlen)) ->
    exists outTree,
      addHybr_entry inTree (key, val) = Ok outTree
      /\ count outTree "(" = S (count inTree "(")
      /\ count outTree ")" = S (count inTree ")").
Proof.
  intros inTree key val before token rest d brlen
         Hkey Hsplit Hd Hparen Hcomma Hopen Hfloat Hrest
         Hv1 Hv2 Hh1 Hh2.
  eexists. split.
  - exact (addHybr_entry_splices _ _ val _ _ _ _ _
             Hkey Hsplit Hd Hparen Hcomma Hfloat Hrest).
  - apply split_first_sound in Hkey. rewrite Hkey.
    generalize (d :: rest). intro tail.
    rewrite !count_app.
    rewrite !(count_not_In val), !(count_not_In token),
      !(count_not_In (str_of_float (times_half brlen))) by assumption.
    change (count (lit "(h#") "(") with 1. change (count (lit "(h#") ")") with 0.
    change (count (lit ":") "(") with 0. change (count (lit ":") ")") with 0.
    change (count (lit ",") "(") with 0. change (count (lit ",") ")") with 0.
    change (count (lit "):") "(") with 0. change (count (lit "):") ")") with 1.
    split; lia.
Qed.

(** Both sides of an equation between concatenations, associated to the
    right. *)
Ltac app_normal :=
  repeat first [rewrite <- app_assoc | progress cbn [app]]; reflexivity.

(** X14: when do the two splices commute?  Take two labels that first
    occur, as [key1 + ":"] and [key2 + ":"], at two places of the text,
    the first before the second, each with a branch length.  If the clade
    spliced in at the first place does not change where the second label
    is first found, both orders of the dictionary give the same text: the
    two clades at the two places. *)
Theorem splices_commute :
  forall (inTree key1 val1 key2 val2 a b c token1 token2 clade1 clade2 : str)
         (d1 d2 : ascii) (brlen1 brlen2 : float_t),
    clade1 = lit "(h#" ++ val1 ++ lit ":" ++ str_of_float (times_half brlen1)
               ++ lit "," ++ (key1 ++ lit ":" ++ str_of_float (times_half brlen1))
               ++ lit "):" ++ str_of_float (times_half brlen1) ->
    clade2 = lit "(h#" ++ val2 ++ lit ":" ++ str_of_float (times_half brlen2)
               ++ lit "," ++ (key2 ++ lit ":" ++ str_of_float (times_half brlen2))
               ++ lit "):" ++ str_of_float (times_half brlen2) ->
    split_first key1 inTree
    = Some (a, lit ":" ++ token1 ++ d1 :: b ++ key2 ++ lit ":" ++ token2 ++ d2 :: c) ->
    split_first (key1 ++ lit ":") inTree
    = Some (a, token1 ++ d1 :: b ++ key2 ++ lit ":" ++ token2 ++ d2 :: c) ->
    split_first key2 inTree
    = Some (a ++ key1 ++ lit ":" ++ token1 ++ d1 :: b, lit ":" ++ token2 ++ d2 :: c) ->
    split_first (key2 ++ lit ":") inTree
    = Some (a ++ key1 ++ lit ":" ++ token1 ++ d1 :: b, token2 ++ d2 :: c) ->
    split_first key2 (a ++ clade1 ++ d1 :: b ++ key2 ++ lit ":" ++ token2 ++ d2 :: c)
    = Some (a ++ clade1 ++ d1 :: b, lit ":" ++ token2 ++ d2 :: c) ->
    split_first (key2 ++ lit ":")
                (a ++ clade1 ++ d1 :: b ++ key2 ++ lit ":" ++ token2 ++ d2 :: c)
    = Some (a ++ clade1 ++ d1 :: b, token2 ++ d2 :: c) ->
    d1 = ")" \/ d1 = "," ->
    d2 = ")" \/ d2 = "," ->
    ~ In ")" token1 -> ~ In "," token1 ->
    ~ In ")" token2 -> ~ In "," token2 ->
    float token1 = Some brlen1 ->
    float token2 = Some brlen2 ->
    (d2 = "," -> In ")" c) ->
    addHybrDict inTree [(key1, val1); (key2, val2)]
    = Ok (a ++ clade1 ++ d1 :: b ++ clade2 ++ d2 :: c)
    /\ (inTree' <- addHybr_entry inTree (key1, val1) ;;
        addHybr_entry inTree' (key2, val2))
       = (inTree' <- addHybr_entry inTree (key2, val2) ;;
          addHybr_entry inTree' (key1, val1)).
Proof.
  intros inTree key1 val1 key2 val2 a b c token1 token2 clade1 clade2
         d1 d2 brlen1 brlen2 Hc1 Hc2 Hk1 Hs1 Hk2 Hs2 Hk2' Hs2'
         Hd1 Hd2 Hp1 Hm1 Hp2 Hm2 Hf1 Hf2 Hrest2.
  (* a closing parenthesis follows the second token *)
  assert (Hclose : In ")" (d2 :: c)).
  { destruct Hd2 as [-> | ->]; [now left | right; now apply Hrest2]. }
  (* the first label, then the second *)
  assert (H12 : (inTree' <- addHybr_entry inTree (key1, val1) ;;
                 addHybr_entry inTree' (key2, val2))
                = Ok (a ++ clade1 ++ d1 :: b ++ clade2 ++ d2 :: c)).
  { rewrite (addHybr_entry_splices _ _ val1 _ _ _ _ _ Hk1 Hs1 Hd1 Hp1 Hm1 Hf1).
    2:{ intros _. apply in_or_app. right. apply in_or_app. right.
        apply in_or_app. right. apply in_or_app. now right. }
    cbn [bind].
    replace (a ++ lit "(h#" ++ val1 ++ lit ":" ++ str_of_float (times_half brlen1)
               ++ lit "," ++ (key1 ++ lit ":" ++ str_of_float (times_half brlen1))
               ++ lit "):" ++ str_of_float (times_half brlen1)
               ++ d1 :: b ++ key2 ++ lit ":" ++ token2 ++ d2 :: c)
      with (a ++ clade1 ++ d1 :: b ++ key2 ++ lit ":" ++ token2 ++ d2 :: c)
      by (subst clade1; app_normal).
    rewrite (addHybr_entry_splices _ _ val2 _ _ _ _ _
               Hk2' Hs2' Hd2 Hp2 Hm2 Hf2 Hrest2).
    subst clade2. f_equal. app_normal. }
  (* the second label, then the first *)
  assert (H21 : (inTree' <- addHybr_entry inTree (key2, val2) ;;
                 addHybr_entry inTree' (key1, val1))
                = Ok (a ++ clade1 ++ d1 :: b ++ clade2 ++ d2 :: c)).
  { rewrite (addHybr_entry_splices _ _ val2 _ _ _ _ _
               Hk2 Hs2 Hd2 Hp2 Hm2 Hf2 Hrest2).
    cbn [bind].
    replace ((a ++ key1 ++ lit ":" ++ token1 ++ d1 :: b)
               ++ lit "(h#" ++ val2 ++ lit ":" ++ str_of_float (times_half brlen2)
               ++ lit "," ++ (key2 ++ lit ":" ++ str_of_float (times_half brlen2))
               ++ lit "):" ++ str_of_float (times_half brlen2) ++ d2 :: c)
      with (a ++ key1 ++ lit ":" ++ token1 ++ d1 :: b ++ clade2 ++ d2 :: c).
    2:{ subst clade2. app_normal. }
    pose proof (split_first_sound _ _ _ _ Hk1) as Htext.
    rewrite Htext in Hk1, Hs1.
    apply (split_first_stable key1 a _
             (lit ":" ++ token1 ++ d1 :: b ++ clade2 ++ d2 :: c)) in Hk1.
    replace (a ++ key1 ++ lit ":" ++ token1
               ++ d1 :: b ++ key2 ++ lit ":" ++ token2 ++ d2 :: c)
      with (a ++ (key1 ++ lit ":") ++ token1
              ++ d1 :: b ++ key2 ++ lit ":" ++ token2 ++ d2 :: c)
      in Hs1 by app_normal.
    apply (split_first_stable (key1 ++ lit ":") a _
             (token1 ++ d1 :: b ++ clade2 ++ d2 :: c)) in Hs1.
    rewrite <- app_assoc in Hs1.
    rewrite (addHybr_entry_splices _ _ val1 _ _ _ _ _ Hk1 Hs1 Hd1 Hp1 Hm1 Hf1).
    2:{ intros _. apply in_or_app. right. apply in_or_app. now right. }
    subst clade1. f_equal. app_normal. }
  split; [|now rewrite H12, H21].
  unfold addHybrDict.
  pose proof (iteritems_entries [(key1, val1); (key2, val2)]) as Hperm.
  apply Permutation_sym, Permutation_length_2_inv in Hperm.
  destruct Hperm as [-> | ->]; cbn [fold_left addHybr_step bind];
    [exact H12 | exact H21].
Qed.

(** ** The order of the dictionary *)

(** The runs of the loop of line 59 on a plain dictionary.  The script
    builds [aDict = {}] and does not fix the order in which [iteritems]
    yields the entries: a run is the loop over any order that yields every
    entry once. *)
Definition addHybrDict_runs (inTree : str) (hybrDict : dict)
           (outcome : result str) : Prop :=
  exists order,
    Permutation order hybrDict
    /\ fold_left addHybr_step order (Ok inTree) = outcome.

Lemma addHybrDict_runs_two (inTree : str) (entry1 entry2 : str * str)
      (outcome : result str) :
  addHybrDict_runs inTree [entry1; entry2] outcome
  <-> outcome = (inTree' <- addHybr_entry inTree entry1 ;;
                 addHybr_entry inTree' entry2)
      \/ outcome = (inTree' <- addHybr_entry inTree entry2 ;;
                    addHybr_entry inTree' entry1).
Proof.
  unfold addHybrDict_runs. split.
  - intros (order & Hperm & <-).
    apply Permutation_sym, Permutation_length_2_inv in Hperm.
    destruct Hperm as [-> | ->]; [now left | now right].
  - intros [-> | ->].
    + exists [entry1; entry2]. split; [apply Permutation_refl | reflexivity].
    + exists [entry2; entry1]. split; [apply perm_swap | reflexivity].
Qed.

(** The two orders, where splicing at the first place does not change
    where the second label is first found. *)
Lemma splices_both_orders
      (inTree key1 val1 key2 val2 a b c token1 token2 clade1 clade2 : str)
      (d1 d2 : ascii) (brlen1 brlen2 : float_t) :
  clade1 = lit "(h#" ++ val1 ++ lit ":" ++ str_of_float (times_half brlen1)
             ++ lit "," ++ (key1 ++ lit ":" ++ str_of_float (times_half brlen1))
             ++ lit "):" ++ str_of_float (times_half brlen1) ->
  clade2 = lit "(h#" ++ val2 ++ lit ":" ++ str_of_float (times_half brlen2)
             ++ lit "," ++ (key2 ++ lit ":" ++ str_of_float (times_half brlen2))
             ++ lit "):" ++ str_of_float (times_half brlen2) ->
  split_first key1 inTree
  = Some (a, lit ":" ++ token1 ++ d1 :: b ++ key2 ++ lit ":" ++ token2 ++ d2 :: c) ->
  split_first (key1 ++ lit ":") inTree
  = Some (a, token1 ++ d1 :: b ++ key2 ++ lit ":" ++ token2 ++ d2 :: c) ->
  split_first key2 inTree
  = Some (a ++ key1 ++ lit ":" ++ token1 ++ d1 :: b, lit ":" ++ token2 ++ d2 :: c) ->
  split_first (key2 ++ lit ":") inTree
  = Some (a ++ key1 ++ lit ":" ++ token1 ++ d1 :: b, token2 ++ d2 :: c) ->
  split_first key2 (a ++ clade1 ++ d1 :: b ++ key2 ++ lit ":" ++ token2 ++ d2 :: c)
  = Some (a ++ clade1 ++ d1 :: b, lit ":" ++ token2 ++ d2 :: c) ->
  split_first (key2 ++ lit ":")
              (a ++ clade1 ++ d1 :: b ++ key2 ++ lit ":" ++ token2 ++ d2 :: c)
  = Some (a ++ clade1 ++ d1 :: b, token2 ++ d2 :: c) ->
  d1 = ")" \/ d1 = "," ->
  d2 = ")" \/ d2 = "," ->
  ~ In ")" token1 -> ~ In "," token1 ->
  ~ In ")" token2 -> ~ In "," token2 ->
  float token1 = Some brlen1 ->
  float token2 = Some brlen2 ->
  (d2 = "," -> In ")" c) ->
  (inTree' <- addHybr_entry inTree (key1, val1) ;;
   addHybr_entry inTree' (key2, val2))
  = Ok (a ++ clade1 ++ d1 :: b ++ clade2 ++ d2 :: c)
  /\ (inTree' <- addHybr_entry inTree (key2, val2) ;;
      addHybr_entry inTree' (key1, val1))
     = Ok (a ++ clade1 ++ d1 :: b ++ clade2 ++ d2 :: c).
Proof.
  intros Hc1 Hc2 Hk1 Hs1 Hk2 Hs2 Hk2' Hs2'
         Hd1 Hd2 Hp1 Hm1 Hp2 Hm2 Hf1 Hf2 Hrest2.
  assert (Hclose : In ")" (d2 :: c)).
  { destruct Hd2 as [-> | ->]; [now left | right; now apply Hrest2]. }
  split.
  - rewrite (addHybr_entry_splices _ _ val1 _ _ _ _ _ Hk1 Hs1 Hd1 Hp1 Hm1 Hf1).
    2:{ intros _. apply in_or_app. right. apply in_or_app. right.
        apply in_or_app. right. apply in_or_app. now right. }
    cbn [bind].
    replace (a ++ lit "(h#" ++ val1 ++ lit ":" ++ str_of_float (times_half brlen1)
               ++ lit "," ++ (key1 ++ lit ":" ++ str_of_float (times_half brlen1))
               ++ lit "):" ++ str_of_float (times_half brlen1)
               ++ d1 :: b ++ key2 ++ lit ":" ++ token2 ++ d2 :: c)
      with (a ++ clade1 ++ d1 :: b ++ key2 ++ lit ":" ++ token2 ++ d2 :: c)
      by (subst clade1; app_normal).
    rewrite (addHybr_entry_splices _ _ val2 _ _ _ _ _
               Hk2' Hs2' Hd2 Hp2 Hm2 Hf2 Hrest2).
    subst clade2. f_equal. app_normal.
  - rewrite (addHybr_entry_splices _ _ val2 _ _ _ _ _
               Hk2 Hs2 Hd2 Hp2 Hm2 Hf2 Hrest2).
    cbn [bind].
    replace ((a ++ key1 ++ lit ":" ++ token1 ++ d1 :: b)
               ++ lit "(h#" ++ val2 ++ lit ":" ++ str_of_float (times_half brlen2)
               ++ lit "," ++ (key2 ++ lit ":" ++ str_of_float (times_half brlen2))
               ++ lit "):" ++ str_of_float (times_half brlen2) ++ d2 :: c)
      with (a ++ key1 ++ lit ":" ++ token1 ++ d1 :: b ++ clade2 ++ d2 :: c).
    2:{ subst clade2. app_normal. }
    pose proof (split_first_sound _ _ _ _ Hk1) as Htext.
    rewrite Htext in Hk1, Hs1.
    apply (split_first_stable key1 a _
             (lit ":" ++ token1 ++ d1 :: b ++ clade2 ++ d2 :: c)) in Hk1.
    replace (a ++ key1 ++ lit ":" ++ token1
               ++ d1 :: b ++ key2 ++ lit ":" ++ token2 ++ d2 :: c)
      with (a ++ (key1 ++ lit ":") ++ token1
              ++ d1 :: b ++ key2 ++ lit ":" ++ token2 ++ d2 :: c)
      in Hs1 by app_normal.
    apply (split_first_stable (key1 ++ lit ":") a _
             (token1 ++ d1 :: b ++ clade2 ++ d2 :: c)) in Hs1.
    rewrite <- app_assoc in Hs1.
    rewrite (addHybr_entry_splices _ _ val1 _ _ _ _ _ Hk1 Hs1 Hd1 Hp1 Hm1 Hf1).
    2:{ intros _. apply in_or_app. right. apply in_or_app. now right. }
    subst clade1. f_equal. app_normal.
Qed.

(** C7, amended: on a dictionary of two entries every run applies the
    loop body once per entry, the second turn on the text the first has
    produced, in one of the two orders: the script does not fix which.
    All runs give the same text, the two clades at their two places,
    where the two labels first occur as [key + ":"] at two places, each
    with a branch length, and the clade spliced in at the first place
    does not change where the second label is first found. *)
Theorem addHybrDict_runs_agree :
  forall (inTree key1 val1 key2 val2 a b c token1 token2 clade1 clade2 : str)
         (d1 d2 : ascii) (brlen1 brlen2 : float_t),
    clade1 = lit "(h#" ++ val1 ++ lit ":" ++ str_of_float (times_half brlen1)
               ++ lit "," ++ (key1 ++ lit ":" ++ str_of_float (times_half brlen1))
               ++ lit "):" ++ str_of_float (times_half brlen1) ->
    clade2 = lit "(h#" ++ val2 ++ lit ":" ++ str_of_float (times_half brlen2)
               ++ lit "," ++ (key2 ++ lit ":" ++ str_of_float (times_half brlen2))
               ++ lit "):" ++ str_of_float (times_half brlen2) ->
    split_first key1 inTree
    = Some (a, lit ":" ++ token1 ++ d1 :: b ++ key2 ++ lit ":" ++ token2 ++ d2 :: c) ->
    split_first (key1 ++ lit ":") inTree
    = Some (a, token1 ++ d1 :: b ++ key2 ++ lit ":" ++ token2 ++ d2 :: c) ->
    split_first key2 inTree
    = Some (a ++ key1 ++ lit ":" ++ token1 ++ d1 :: b, lit ":" ++ token2 ++ d2 :: c) ->
    split_first (key2 ++ lit ":") inTree
    = Some (a ++ key1 ++ lit ":" ++ token1 ++ d1 :: b, token2 ++ d2 :: c) ->
    split_first key2 (a ++ clade1 ++ d1 :: b ++ key2 ++ lit ":" ++ token2 ++ d2 :: c)
    = Some (a ++ clade1 ++ d1 :: b, lit ":" ++ token2 ++ d2 :: c) ->
    split_first (key2 ++ lit ":")
                (a ++ clade1 ++ d1 :: b ++ key2 ++ lit ":" ++ token2 ++ d2 :: c)
    = Some (a ++ clade1 ++ d1 :: b, token2 ++ d2 :: c) ->
    d1 = ")" \/ d1 = "," ->
    d2 = ")" \/ d2 = "," ->
    ~ In ")" token1 -> ~ In "," token1 ->
    ~ In ")" token2 -> ~ In "," token2 ->
    float token1 = Some brlen1 ->
    float token2 = Some brlen2 ->
    (d2 = "," -> In ")" c) ->
    (forall outcome,
        addHybrDict_runs inTree [(key1, val1); (key2, val2)] outcome
        <-> outcome = (inTree' <- addHybr_entry inTree (key1, val1) ;;
                       addHybr_entry inTree' (key2, val2))
            \/ outcome = (inTree' <- addHybr_entry inTree (key2, val2) ;;
                          addHybr_entry inTree' (key1, val1)))
    /\ (forall outcome,
           addHybrDict_runs inTree [(key1, val1); (key2, val2)] outcome
           <-> outcome = Ok (a ++ clade1 ++ d1 :: b ++ clade2 ++ d2 :: c)).
Proof.
  intros inTree key1 val1 key2 val2 a b c token1 token2 clade1 clade2
         d1 d2 brlen1 brlen2 Hc1 Hc2 Hk1 Hs1 Hk2 Hs2 Hk2' Hs2'
         Hd1 Hd2 Hp1 Hm1 Hp2 Hm2 Hf1 Hf2 Hrest2.
  destruct (splices_both_orders _ _ val1 _ val2 _ _ _ _ _ _ _ _ _ _ _
              Hc1 Hc2 Hk1 Hs1 Hk2 Hs2 Hk2' Hs2'
              Hd1 Hd2 Hp1 Hm1 Hp2 Hm2 Hf1 Hf2 Hrest2) as [H12 H21].
  split; intro outcome.
  - apply addHybrDict_runs_two.
  - rewrite addHybrDict_runs_two, H12, H21.
    split; [intros [H|H]; exact H | intro H; left; exact H].
Qed.

End Script.

(** * The halving step on Python's floats *)

(** Python's [float] is binary64, and line 72 multiplies by the binary64
    number [0.5]. *)
Module Py.

Definition times_half (brlen : PrimFloat.float) : PrimFloat.float :=
  (brlen * 0.5)%float.

(** Lines 62-75 with that arithmetic; [float(s)] and [str(x)] stay what
    the interpreter provides. *)
Definition adjust_brlen (float : str -> option PrimFloat.float)
           (str_of_float : PrimFloat.float -> str) (inTree key : str)
  : result (str * PrimFloat.float) :=
  adjust_brlen PrimFloat.float float times_half str_of_float inTree key.


End Py.



(** * The sample installation at work *)

Lemma Dec_float_rejects_comma (s : str) : In "," s -> Dec.float s = None.
Proof.
  intro H. unfold Dec.float.
  destruct (forallb (fun c => is_digit c || Ascii.eqb c ".") s) eqn:E;
    [|reflexivity].
  rewrite forallb_forall in E. apply E in H. discriminate H.
Qed.

Lemma Sample_iteritems_entries (d : dict) : Permutation (Sample.iteritems d) d.
Proof. apply Permutation_refl. Qed.

Example Dec_halves :
  option_map (fun x => Dec.to_str (Dec.times_half x)) (Dec.float (lit "1.0"))
  = Some (lit "0.5")
  /\ option_map (fun x => Dec.to_str (Dec.times_half x)) (Dec.float (lit "12.5"))
     = Some (lit "6.25")
  /\ option_map (fun x => Dec.to_str (Dec.times_half x)) (Dec.float (lit "3"))
     = Some (lit "1.5").
Proof. repeat split. Qed.

Lemma Sample_float64_rejects_comma (s : str) :
  In "," s -> Sample.float64 s = None.
Proof.
  intro H. unfold Sample.float64. now rewrite (Dec_float_rejects_comma s H).
Qed.


(** The half of [1.0], as a product and as a quotient. *)
Example half_of_one :
  (1 * 0.5 = 0.5)%float /\ (1 / 2 = 0.5)%float
  /\ Prim2SF 1 = S754_finite false 4503599627370496 (-52)
  /\ Prim2SF (Py.times_half 1) = S754_finite false 4503599627370496 (-53).
Proof. repeat split. Qed.

Lemma splice_hybrid_shape_witness :
  lit "((B:0.5,C:1.0):1.0,A:1.0);"
  = lit "((" ++ (lit "B" ++ lit ":" ++ lit "0.5") ++ lit ",C:1.0):1.0,A:1.0);"
  /\ splice_hybrid Dec.t Dec.times_half Dec.to_str
       (lit "((B:0.5,C:1.0):1.0,A:1.0);") (lit "B") (lit "0.6") (10%N, 1)
     = Ok (lit "((" ++ lit "(h#" ++ lit "0.6" ++ lit ":" ++ lit "0.5" ++ lit ","
             ++ (lit "B" ++ lit ":" ++ lit "0.5") ++ lit "):" ++ lit "0.5"
             ++ lit ",C:1.0):1.0,A:1.0);").
Proof.
  apply (splice_hybrid_shape Dec.t Dec.times_half Dec.to_str
           (lit "((B:0.5,C:1.0):1.0,A:1.0);") (lit "B") (lit "0.6")
           (lit "((") (lit ",C:1.0):1.0,A:1.0);") (lit "0.5") (10%N, 1)).
  - reflexivity.
  - reflexivity.
Defined.

(** The order of the entries shows in the output: the two splices need not
    commute. *)
Example splices_do_not_commute :
  addHybrDict Dec.t Dec.float Dec.times_half Dec.to_str (fun d => d)
    (lit "(B:1.0,h:1.0);") [(lit "B", lit "0.6"); (lit "h", lit "0.4")]
  = Ok (lit "(((h#0.4:0.5,h#0.6:0.5,B:0.5):0.5,h:0.5):0.5);")
  /\ addHybrDict Dec.t Dec.float Dec.times_half Dec.to_str (@rev _)
       (lit "(B:1.0,h:1.0);") [(lit "B", lit "0.6"); (lit "h", lit "0.4")]
     = Ok (lit "((h#0.6:0.5,B:0.5):0.5,(h#0.4:0.5,h:0.5):0.5);").
Proof. split; reflexivity. Qed.

Lemma equal_likelihoods_rejected_witness :
  parse_parentInfo (lit "A:0.5,B:0.5")
  = Ok [(lit "A", lit "0.5"); (lit "B", lit "0.5")]
  /\ main Dec.t Dec.float Dec.times_half Dec.to_str Sample.iteritems
       Sample.ladderize Sample.rmext Sample.fs (lit "trees.tre") (lit "A:0.5,B:0.5")
     = (Fail EqualLikelihoodError, []).
Proof.
  apply (equal_likelihoods_rejected Dec.t Dec.float Dec.times_half Dec.to_str
           Sample.iteritems Sample.ladderize Sample.rmext Sample.fs
           (lit "trees.tre") (lit "A") (lit "B") (lit "0") (lit "5") (lit "0.5")
           (lit "A:0.5,B:0.5"));
    try reflexivity; discriminate.
Defined.

Lemma distinct_tokens_accepted_witness :
  parse_parentInfo (lit "A:0.5,B:0.50")
  = Ok [(lit "A", lit "0.5"); (lit "B", lit "0.50")]
  /\ check_likelihoods (lit "A:0.5,B:0.50") = Ok tt
  /\ main Dec.t Dec.float Dec.times_half Dec.to_str Sample.iteritems
       Sample.ladderize Sample.rmext Sample.fs (lit "trees.tre") (lit "A:0.5,B:0.50")
     = run_trees Dec.t Dec.float Dec.times_half Dec.to_str Sample.iteritems
         Sample.ladderize Sample.rmext Sample.fs (lit "trees.tre")
         (lit "A:0.5,B:0.50").
Proof.
  apply (distinct_tokens_accepted Dec.t Dec.float Dec.times_half Dec.to_str
           Sample.iteritems Sample.ladderize Sample.rmext Sample.fs
           (lit "trees.tre") (lit "A") (lit "B") (lit "0") (lit "5") (lit "0")
           (lit "50") (lit "0.5") (lit "0.50") (lit "A:0.5,B:0.50"));
    try reflexivity; discriminate.
Defined.

(** The two tokens of the example above are the same number. *)
Example same_number_two_texts :
  option_map Dec.to_str (Dec.float (lit "0.5"))
  = option_map Dec.to_str (Dec.float (lit "0.50"))
  /\ lit "0.5" <> lit "0.50".
Proof. split; [reflexivity | discriminate]. Qed.

Lemma main_writes_trees_witness :
  main Dec.t Dec.float Dec.times_half Dec.to_str Sample.iteritems
    Sample.ladderize Sample.rmext Sample.fs (lit "trees.tre") (lit "B:0.6,C:0.4")
  = (Ok tt,
     [FileRead (lit "trees.tre");
      FileWritten (lit "trees.wHybrid.tre")
        (lit "(((h#0.6:0.5,B:0.5)s8:0.5,(h#0.4:0.5,C:0.5)s7:0.5)s6:1.0,A:1.0)s5;"
           ++ [newline]
           ++ lit "((h#0.6:1.0,B:1.0)s6:1.0,(h#0.4:1.5,C:1.5)s5:1.5)s4;")])
  /\ (Forall (fun outTree => ~ In newline outTree)
             [lit "(((h#0.6:0.5,B:0.5)s8:0.5,(h#0.4:0.5,C:0.5)s7:0.5)s6:1.0,A:1.0)s5;";
              lit "((h#0.6:1.0,B:1.0)s6:1.0,(h#0.4:1.5,C:1.5)s5:1.5)s4;"] ->
      [lit "(((h#0.6:0.5,B:0.5)s8:0.5,(h#0.4:0.5,C:0.5)s7:0.5)s6:1.0,A:1.0)s5;";
       lit "((h#0.6:1.0,B:1.0)s6:1.0,(h#0.4:1.5,C:1.5)s5:1.5)s4;"] <> [] ->
      split_char newline
        (lit "(((h#0.6:0.5,B:0.5)s8:0.5,(h#0.4:0.5,C:0.5)s7:0.5)s6:1.0,A:1.0)s5;"
           ++ [newline]
           ++ lit "((h#0.6:1.0,B:1.0)s6:1.0,(h#0.4:1.5,C:1.5)s5:1.5)s4;")
      = [lit "(((h#0.6:0.5,B:0.5)s8:0.5,(h#0.4:0.5,C:0.5)s7:0.5)s6:1.0,A:1.0)s5;";
         lit "((h#0.6:1.0,B:1.0)s6:1.0,(h#0.4:1.5,C:1.5)s5:1.5)s4;"])
  /\ 2 = length (filter is_tree_line (readlines Sample.trees_tre))
  /\ (forall line,
         In line (filter is_tree_line (readlines Sample.trees_tre))
         <-> In line (readlines Sample.trees_tre)
             /\ exists blanks c rest,
                 line = blanks ++ c :: rest
                 /\ forallb is_space blanks = true
                 /\ is_space c = false /\ c <> "#").
Proof.
  apply (main_writes_trees Dec.t Dec.float Dec.times_half Dec.to_str
           Sample.iteritems Sample.ladderize Sample.rmext Sample.fs
           (lit "trees.tre") (lit "B:0.6,C:0.4") Sample.trees_tre
           [lit "(((h#0.6:0.5,B:0.5)s8:0.5,(h#0.4:0.5,C:0.5)s7:0.5)s6:1.0,A:1.0)s5;";
            lit "((h#0.6:1.0,B:1.0)s6:1.0,(h#0.4:1.5,C:1.5)s5:1.5)s4;"]).
  - reflexivity.
  - reflexivity.
  - change (filter is_tree_line (readlines Sample.trees_tre))
      with [lit "((B:1.0,C:1.0):1.0,A:1.0);" ++ [newline];
            lit "  (B:2.0,C:3.0);" ++ [newline]].
    repeat constructor.
Defined.

Example sample_runs :
  main Dec.t Dec.float Dec.times_half Dec.to_str Sample.iteritems
    Sample.ladderize Sample.rmext Sample.fs (lit "trees.tre") (lit "B:0.6")
  = (Ok tt,
     [FileRead (lit "trees.tre");
      FileWritten (lit "trees.wSister.tre")
        (lit "(((h#0.6:0.5,B:0.5)s6:0.5,C:1.0)s5:1.0,A:1.0)s4;" ++ [newline]
           ++ lit "((h#0.6:1.0,B:1.0)s4:1.0,C:3.0)s3;")])
  /\ output_name Sample.rmext (lit "trees.tre") (lit "B:0.6,C:0.4")
     = lit "trees.wHybrid.tre".
Proof. split; vm_compute; reflexivity. Qed.

Lemma missing_taxon_aborts_witness :
  addHybr_entry Dec.t Dec.float Dec.times_half Dec.to_str
    (lit "(A:1.0,D:2.0);") (lit "B", lit "0.6")
  = Fail MissingTaxonError
  /\ main Dec.t Dec.float Dec.times_half Dec.to_str Sample.iteritems
       Sample.ladderize Sample.rmext Sample.fs (lit "other.tre") (lit "B:0.6")
     = (Fail MissingTaxonError, [FileRead (lit "other.tre")]).
Proof.
  pose proof (missing_taxon_aborts Dec.t Dec.float Dec.times_half Dec.to_str
                Sample.iteritems Sample.ladderize Sample.rmext)
    as (Habsent & _ & Hrun).
  split.
  - apply Habsent. intros (before & after & H).
    assert (Hc : contains (lit "(A:1.0,D:2.0);") (lit "B") = true)
      by (apply (proj2 (contains_occurs _ _)); now exists before, after).
    discriminate Hc.
  - apply (Hrun Sample.fs (lit "other.tre") (lit "B:0.6") Sample.other_tre
             [lit "((B:1.0,C:1.0):1.0,A:1.0);" ++ [newline]] []
             (lit "(A:1.0,D:2.0);" ++ [newline])
             (lit "(A:1.0,D:2.0);" ++ [newline])
             [lit "(((h#0.6:0.5,B:0.5)s6:0.5,C:1.0)s5:1.0,A:1.0)s4;"]
             [(lit "B", lit "0.6")] [] [] (lit "B") (lit "0.6")
             (lit "(A:1.0,D:2.0);"));
      try reflexivity.
    intros (before & after & H).
    assert (Hc : contains (lit "(A:1.0,D:2.0);") (lit "B") = true)
      by (apply (proj2 (contains_occurs _ _)); now exists before, after).
    discriminate Hc.
Defined.

(** ** The further properties at work *)

(** A character is, or is not, in a given text. *)
Ltac in_text := simpl; repeat first [left; reflexivity | right].
Ltac not_in_text := simpl; intuition discriminate.

Lemma no_point_no_match_witness :
  check_likelihoods (lit "A:1,B:1") = Fail AttributeError
  /\ main Dec.t Dec.float Dec.times_half Dec.to_str Sample.iteritems
       Sample.ladderize Sample.rmext Sample.fs (lit "trees.tre") (lit "A:1,B:1")
     = (Fail AttributeError, []).
Proof.
  apply (no_point_no_match Dec.t Dec.float Dec.times_half Dec.to_str
           Sample.iteritems Sample.ladderize Sample.rmext Sample.fs
           (lit "trees.tre") (lit "A:1,B:1")).
  - in_text.
  - not_in_text.
Defined.

Lemma check_ignores_what_follows_witness :
  check_likelihoods (lit "A:0.5,B:0.5e0") = Fail EqualLikelihoodError
  /\ check_likelihoods (lit "A:0.3,B:0.5,C:0.5") = Ok tt.
Proof.
  split.
  - apply (proj1 (check_ignores_what_follows
                    (lit "A") (lit "B") (lit "0") (lit "5") (lit "0") (lit "5")
                    (lit "e0") (lit "A:0.5,B:0.5e0")
                    eq_refl ltac:(discriminate) eq_refl ltac:(discriminate)
                    eq_refl eq_refl ltac:(discriminate)
                    eq_refl eq_refl ltac:(discriminate) eq_refl eq_refl)).
    reflexivity.
  - apply (proj2 (check_ignores_what_follows
                    (lit "A") (lit "B") (lit "0") (lit "3") (lit "0") (lit "5")
                    (lit ",C:0.5") (lit "A:0.3,B:0.5,C:0.5")
                    eq_refl ltac:(discriminate) eq_refl ltac:(discriminate)
                    eq_refl eq_refl ltac:(discriminate)
                    eq_refl eq_refl ltac:(discriminate) eq_refl eq_refl)).
    discriminate.
Defined.


Lemma parse_parentInfo_keys_witness :
  NoDup (map fst [(lit "A", lit "0.7"); (lit "B", lit "0.3")])
  /\ 1 <= length [(lit "A", lit "0.7"); (lit "B", lit "0.3")]
     <= length (split_char "," (lit "A:0.6,B:0.3,A:0.7")).
Proof.
  apply (parse_parentInfo_keys (lit "A:0.6,B:0.3,A:0.7")).
  reflexivity.
Defined.

Lemma same_label_twice_witness :
  parse_parentInfo (lit "A:0.6,A:0.4") = Ok [(lit "A", lit "0.4")]
  /\ (forall inTree,
         addHybrDict Dec.t Dec.float Dec.times_half Dec.to_str Sample.iteritems
           inTree [(lit "A", lit "0.4")]
         = addHybr_entry Dec.t Dec.float Dec.times_half Dec.to_str
             inTree (lit "A", lit "0.4"))
  /\ output_name Sample.rmext (lit "trees.tre") (lit "A:0.6,A:0.4")
     = Sample.rmext (lit "trees.tre") ++ lit ".wHybrid.tre".
Proof.
  apply (same_label_twice Dec.t Dec.float Dec.times_half Dec.to_str
           Sample.iteritems Sample.rmext Sample_iteritems_entries
           (lit "trees.tre") (lit "A") (lit "0") (lit "6") (lit "0") (lit "4")
           (lit "A:0.6,A:0.4"));
    reflexivity.
Defined.

Lemma drop_brackets_annotations_witness :
  drop_brackets None (lit "[&U] (A,B);") = drop_brackets None (lit " (A,B);")
  /\ drop_brackets None (lit " (A,B);") = lit " (A,B);".
Proof.
  split.
  - apply (proj1 (proj2 (drop_brackets_annotations (lit "&U") (lit " (A,B);"))));
      not_in_text.
  - apply (proj1 (drop_brackets_annotations (lit "&U") (lit " (A,B);"))).
    not_in_text.
Defined.

Lemma malformed_brlen_raises_witness :
  adjust_brlen Dec.t Dec.float Dec.times_half Dec.to_str
    (lit "(A:x1,B:2.0);") (lit "A")
  = Fail ValueError
  /\ addHybr_entry Dec.t Dec.float Dec.times_half Dec.to_str
       (lit "(A:x1,B:2.0);") (lit "A", lit "0.6")
     = Fail ValueError.
Proof.
  apply (malformed_brlen_raises Dec.t Dec.float Dec.times_half Dec.to_str
           Dec_float_rejects_comma
           (lit "(A:x1,B:2.0);") (lit "A") (lit "0.6") (lit "(") (lit "x1")
           (lit "B:2.0);")).
  - reflexivity.
  - not_in_text.
  - not_in_text.
  - in_text.
  - reflexivity.
Defined.

Lemma splice_adds_one_clade_witness :
  exists outTree,
    addHybr_entry Dec.t Dec.float Dec.times_half Dec.to_str
      (lit "((B:1.0,C:1.0):1.0,A:1.0);") (lit "B", lit "0.6") = Ok outTree
    /\ count outTree "(" = S (count (lit "((B:1.0,C:1.0):1.0,A:1.0);") "(")
    /\ count outTree ")" = S (count (lit "((B:1.0,C:1.0):1.0,A:1.0);") ")").
Proof.
  apply (splice_adds_one_clade Dec.t Dec.float Dec.times_half Dec.to_str
           Dec_float_rejects_comma
           (lit "((B:1.0,C:1.0):1.0,A:1.0);") (lit "B") (lit "0.6")
           (lit "((") (lit "1.0") (lit "C:1.0):1.0,A:1.0);") "," (10%N, 1)).
  - reflexivity.
  - reflexivity.
  - now right.
  - not_in_text.
  - not_in_text.
  - not_in_text.
  - reflexivity.
  - intros _. in_text.
  - not_in_text.
  - not_in_text.
  - vm_compute. intuition discriminate.
  - vm_compute. intuition discriminate.
Defined.

Lemma splices_commute_witness :
  addHybrDict Dec.t Dec.float Dec.times_half Dec.to_str Sample.iteritems
    (lit "((B:1.0,C:1.0):1.0,A:1.0);") [(lit "B", lit "0.6"); (lit "C", lit "0.4")]
  = Ok (lit "((" ++ lit "(h#0.6:0.5,B:0.5):0.5" ++ "," :: []
          ++ lit "(h#0.4:0.5,C:0.5):0.5" ++ ")" :: lit ":1.0,A:1.0);")
  /\ (inTree' <- addHybr_entry Dec.t Dec.float Dec.times_half Dec.to_str
                   (lit "((B:1.0,C:1.0):1.0,A:1.0);") (lit "B", lit "0.6") ;;
      addHybr_entry Dec.t Dec.float Dec.times_half Dec.to_str
        inTree' (lit "C", lit "0.4"))
     = (inTree' <- addHybr_entry Dec.t Dec.float Dec.times_half Dec.to_str
                     (lit "((B:1.0,C:1.0):1.0,A:1.0);") (lit "C", lit "0.4") ;;
        addHybr_entry Dec.t Dec.float Dec.times_half Dec.to_str
          inTree' (lit "B", lit "0.6")).
Proof.
  apply (splices_commute Dec.t Dec.float Dec.times_half Dec.to_str
           Sample.iteritems Dec_float_rejects_comma Sample_iteritems_entries
           (lit "((B:1.0,C:1.0):1.0,A:1.0);")
           (lit "B") (lit "0.6") (lit "C") (lit "0.4")
           (lit "((") [] (lit ":1.0,A:1.0);") (lit "1.0") (lit "1.0")
           (lit "(h#0.6:0.5,B:0.5):0.5") (lit "(h#0.4:0.5,C:0.5):0.5")
           "," ")" (10%N, 1) (10%N, 1));
    try reflexivity.
  - now right.
  - now left.
  - not_in_text.
  - not_in_text.
  - not_in_text.
  - not_in_text.
  - discriminate.
Defined.

(** ** Counterexamples *)

(** C5, as the claim states it, fails: two entries with the same
    probability [1] do not reach the comparison of line 103.  The pattern
    asks for a decimal point, [search] is [None], and the run ends with
    [AttributeError]. *)
Lemma equal_values_without_point :
  parse_parentInfo (lit "A:1,B:1") = Ok [(lit "A", lit "1"); (lit "B", lit "1")]
  /\ main PrimFloat.float Sample.float64 Py.times_half Sample.str_of_float64
       Sample.iteritems Sample.ladderize Sample.rmext Sample.fs
       (lit "trees.tre") (lit "A:1,B:1")
     = (Fail AttributeError, [])
  /\ main PrimFloat.float Sample.float64 Py.times_half Sample.str_of_float64
       Sample.iteritems Sample.ladderize Sample.rmext Sample.fs
       (lit "trees.tre") (lit "A:1,B:1")
     <> (Fail EqualLikelihoodError, []).
Proof. split; [reflexivity | split; [reflexivity | discriminate]]. Qed.

(** C10, as the claim states it, fails twice.  The tokens [0.5] and
    [0.5e0] differ as texts and the check, which captures [0.5] from
    both, raises the equal-likelihood failure; the tokens [1] and [1.0]
    are the same number in two texts and the run ends with
    [AttributeError]. *)
Lemma distinct_texts_rejected :
  parse_parentInfo (lit "A:0.5,B:0.5e0")
  = Ok [(lit "A", lit "0.5"); (lit "B", lit "0.5e0")]
  /\ lit "0.5" <> lit "0.5e0"
  /\ check_likelihoods (lit "A:0.5,B:0.5e0") = Fail EqualLikelihoodError
  /\ parse_parentInfo (lit "A:1,B:1.0")
     = Ok [(lit "A", lit "1"); (lit "B", lit "1.0")]
  /\ lit "1" <> lit "1.0"
  /\ Sample.float64 (lit "1") = Sample.float64 (lit "1.0")
  /\ main PrimFloat.float Sample.float64 Py.times_half Sample.str_of_float64
       Sample.iteritems Sample.ladderize Sample.rmext Sample.fs
       (lit "trees.tre") (lit "A:1,B:1.0")
     = (Fail AttributeError, []).
Proof.
  repeat split; try reflexivity; discriminate.
Qed.

(** C7, as the claim states it, fails: the script does not fix the order
    of its dictionary, and the two orders of the entries [B] and [h] give
    two texts. *)
Lemma iteration_order_changes_output :
  addHybrDict_runs PrimFloat.float Sample.float64 Py.times_half
    Sample.str_of_float64
    (lit "(B:1.0,h:1.0);") [(lit "B", lit "0.6"); (lit "h", lit "0.4")]
    (Ok (lit "(((h#0.4:0.5,h#0.6:0.5,B:0.5):0.5,h:0.5):0.5);"))
  /\ addHybrDict_runs PrimFloat.float Sample.float64 Py.times_half
       Sample.str_of_float64
       (lit "(B:1.0,h:1.0);") [(lit "B", lit "0.6"); (lit "h", lit "0.4")]
       (Ok (lit "((h#0.6:0.5,B:0.5):0.5,(h#0.4:0.5,h:0.5):0.5);"))
  /\ lit "(((h#0.4:0.5,h#0.6:0.5,B:0.5):0.5,h:0.5):0.5);"
     <> lit "((h#0.6:0.5,B:0.5):0.5,(h#0.4:0.5,h:0.5):0.5);".
Proof.
  split; [|split].
  - exists [(lit "B", lit "0.6"); (lit "h", lit "0.4")].
    split; [apply Permutation_refl | vm_compute; reflexivity].
  - exists [(lit "h", lit "0.4"); (lit "B", lit "0.6")].
    split; [apply perm_swap | vm_compute; reflexivity].
  - discriminate.
Qed.

Lemma addHybrDict_runs_agree_witness :
  (forall outcome,
      addHybrDict_runs PrimFloat.float Sample.float64 Py.times_half
        Sample.str_of_float64 (lit "((B:1.0,C:1.0):1.0,A:1.0);")
        [(lit "B", lit "0.6"); (lit "C", lit "0.4")] outcome
      <-> outcome
          = (inTree' <- addHybr_entry PrimFloat.float Sample.float64
                          Py.times_half Sample.str_of_float64
                          (lit "((B:1.0,C:1.0):1.0,A:1.0);") (lit "B", lit "0.6") ;;
             addHybr_entry PrimFloat.float Sample.float64 Py.times_half
               Sample.str_of_float64 inTree' (lit "C", lit "0.4"))
          \/ outcome
             = (inTree' <- addHybr_entry PrimFloat.float Sample.float64
                             Py.times_half Sample.str_of_float64
                             (lit "((B:1.0,C:1.0):1.0,A:1.0);") (lit "C", lit "0.4") ;;
                addHybr_entry PrimFloat.float Sample.float64 Py.times_half
                  Sample.str_of_float64 inTree' (lit "B", lit "0.6")))
  /\ (forall outcome,
         addHybrDict_runs PrimFloat.float Sample.float64 Py.times_half
           Sample.str_of_float64 (lit "((B:1.0,C:1.0):1.0,A:1.0);")
           [(lit "B", lit "0.6"); (lit "C", lit "0.4")] outcome
         <-> outcome
             = Ok (lit "((" ++ lit "(h#0.6:0.5,B:0.5):0.5" ++ "," :: []
                     ++ lit "(h#0.4:0.5,C:0.5):0.5" ++ ")" :: lit ":1.0,A:1.0);")).
Proof.
  apply (addHybrDict_runs_agree PrimFloat.float Sample.float64 Py.times_half
           Sample.str_of_float64 Sample_float64_rejects_comma
           (lit "((B:1.0,C:1.0):1.0,A:1.0);")
           (lit "B") (lit "0.6") (lit "C") (lit "0.4")
           (lit "((") [] (lit ":1.0,A:1.0);") (lit "1.0") (lit "1.0")
           (lit "(h#0.6:0.5,B:0.5):0.5") (lit "(h#0.4:0.5,C:0.5):0.5")
           "," ")" 1%float 1%float);
    try reflexivity.
  - now right.
  - now left.
  - not_in_text.
  - not_in_text.
  - not_in_text.
  - not_in_text.
  - discriminate.
Defined.
